(** * Sovryn-Watcher: position scanner, liquidator and arbitrage engine

    A shallow embedding of the three controllers of the watcher:
    - [Scanner]: the position scanner (processPositions, loadActivePositions,
      addPosition);
    - [Liquidator]: controller/liquidator.js (liquidate and its handlers);
    - [Arbitrage]: controller/arbitrage.js (calcArbitrage, start,
      sendLiquidity, calculateProfit).

    JavaScript objects used as maps are finite maps with string keys, JS
    numbers are IEEE-754 binary64 floats, an abrupt completion (a thrown
    TypeError or ReferenceError) is explicit, and what the remote ledger
    answers to a call is an argument of the function that issues the call. *)

From Stdlib Require Import ZArith Floats Lia.
From stdpp Require Import base strings list gmap.

Set Warnings "-inexact-float".

Local Open Scope Z_scope.

(** ** JavaScript completions *)

(** [LibraryError] is an Error thrown by a call into a library (web3). *)
Inductive JsError := TypeError | ReferenceError | LibraryError.

(** The outcome of running a piece of JavaScript: it completes normally with a
    value, or it throws. *)
Inductive Completion (A : Type) :=
| Normal (a : A)
| Throw (e : JsError).
Arguments Normal {A} a.
Arguments Throw {A} e.

(** ** Loan entries *)

(** One entry of the array answered by getActiveLoans. [loanId] is [None] when
    the property is missing (undefined). *)
Record Loan := {
  loanId : option string;
  loanToken : string;
  maxLiquidatable : Z
}.

(** Truthiness of [l.loanId]: undefined and the empty string are falsy. *)
Definition truthy_id (o : option string) : bool :=
  match o with
  | Some (String _ _) => true
  | _ => false
  end.

(** The property key JavaScript uses for [obj[l.loanId]]. *)
Definition keyOf (l : Loan) : string :=
  match loanId l with
  | Some s => s
  | None => "undefined"
  end.

Module Scanner.

Record Conf := {
  nrOfProcessingPositions : Z;
  waitBetweenRounds : Z
}.

(** What the loop itself does besides updating its state: the console.log of
    the cycle total and the pauses (U.wasteTime). The console.error
    diagnostics of loadActivePositions are not recorded. *)
Inductive Effect :=
| LogActivePositions (n : nat)
| WasteTime (secs : Z).

(** The state of processPositions: the cursor [from, to), the two shared
    mappings and the effects so far. *)
Record State := {
  from : Z;
  to : Z;
  positions : gmap string Loan;
  liquidations : gmap string Loan;
  effects : list Effect
}.

(** What the ledger answers to getActiveLoans(from, to, false).call(cb): the
    callback receives an error, the call itself throws, or the callback
    receives the page. *)
Inductive LedgerReply :=
| CallbackError
| CallThrows
| CallbackResult (res : list Loan).

(** The values the promise of loadActivePositions resolves to. *)
Inductive PosValue :=
| JsUndefined
| JsFalse
| JsArray (loans : list Loan).

(** loadActivePositions: [resolve()] on a callback error, [resolve(false)] in
    the catch block, [resolve(res)] otherwise. *)
Definition loadActivePositions (r : LedgerReply) : PosValue :=
  match r with
  | CallbackError => JsUndefined
  | CallThrows => JsFalse
  | CallbackResult res => JsArray res
  end.

(** [if (pos)]: an array is truthy (also the empty one). *)
Definition truthy (pos : PosValue) : bool :=
  match pos with
  | JsArray _ => true
  | _ => false
  end.

(** The entries [for (let l of loans)] goes through. *)
Definition entries (pos : PosValue) : list Loan :=
  match pos with
  | JsArray loans => loans
  | _ => []
  end.

(** [pos.length > 0]: reading a property of undefined throws a TypeError;
    [false.length] is undefined and [undefined > 0] is false. *)
Definition length_positive (pos : PosValue) : Completion bool :=
  match pos with
  | JsUndefined => Throw TypeError
  | JsFalse => Normal false
  | JsArray loans => Normal (bool_decide (0 < length loans)%nat)
  end.

(** The mappings are plain objects (processPositions calls
    [this.positions.hasOwnProperty]), so a property read that finds no own
    property goes on to Object.prototype. These are its property names; the
    value of each of them is truthy. *)
Definition objectPrototypeKeys : list string :=
  ["constructor"; "hasOwnProperty"; "isPrototypeOf"; "propertyIsEnumerable";
   "toLocaleString"; "toString"; "valueOf"; "__proto__";
   "__defineGetter__"; "__defineSetter__"; "__lookupGetter__"; "__lookupSetter__"].

Definition inherited (k : string) : bool :=
  existsb (String.eqb k) objectPrototypeKeys.

(** Truthiness of [this.positions[k]]: an own property holds a loan object,
    which is truthy; without an own property the read yields the inherited
    property of that name, if there is one, and undefined otherwise. *)
Definition positionsHas (pos : gmap string Loan) (k : string) : bool :=
  match pos !! k with
  | Some _ => true
  | None => inherited k
  end.

(** The body of the for-loop of addPosition for one entry [l]. *)
Definition addOne (l : Loan) (pos liq : gmap string Loan)
  : gmap string Loan * gmap string Loan :=
  if truthy_id (loanId l) then
    if positionsHas pos (keyOf l) then (pos, liq)
    else
      (<[keyOf l := l]> pos,
       if 0 <? maxLiquidatable l then <[keyOf l := l]> liq else liq)
  else (pos, liq).

Fixpoint addPosition (loans : list Loan) (pos liq : gmap string Loan)
  : gmap string Loan * gmap string Loan :=
  match loans with
  | [] => (pos, liq)
  | l :: rest => let '(pos', liq') := addOne l pos liq in addPosition rest pos' liq'
  end.

(** One iteration of the [while (true)] loop of processPositions, for the
    answer [r] of the ledger. *)
Definition iteration (conf : Conf) (r : LedgerReply) (s : State) : Completion State :=
  let pos := loadActivePositions r in
  let '(p1, l1) :=
    if truthy pos
    then addPosition (entries pos) (positions s) (liquidations s)
    else (positions s, liquidations s) in
  match length_positive pos with
  | Throw e => Throw e
  | Normal true =>
      Normal {| from := to s;
                to := to s + nrOfProcessingPositions conf;
                positions := p1;
                liquidations := l1;
                effects := effects s ++ [WasteTime 1] |}
  | Normal false =>
      Normal {| from := 0;
                to := nrOfProcessingPositions conf;
                positions := ∅;
                liquidations := l1;
                effects := effects s ++ [LogActivePositions (size p1);
                                         WasteTime (waitBetweenRounds conf)] |}
  end.

(** The loop over the successive answers of the ledger. An abrupt completion
    leaves the loop: the remaining answers are never asked for. *)
Fixpoint loop (conf : Conf) (replies : list LedgerReply) (s : State) : Completion State :=
  match replies with
  | [] => Normal s
  | r :: rest =>
      match iteration conf r s with
      | Normal s' => loop conf rest s'
      | Throw e => Throw e
      end
  end.

(** processPositions on the mappings handed to [start]: the cursor starts at
    (0, nrOfProcessingPositions). *)
Definition processPositions (conf : Conf) (pos liq : gmap string Loan)
    (replies : list LedgerReply) : Completion State :=
  loop conf replies
    {| from := 0; to := nrOfProcessingPositions conf;
       positions := pos; liquidations := liq; effects := [] |}.

(** Every key of [liquidations] is a key of [positions]. *)
Definition liq_subset_pos (pos liq : gmap string Loan) : Prop :=
  dom liq ⊆ dom pos.

(** An entry that addPosition can put into [positions]: its loanId is
    truthy and is not the name of an inherited property. *)
Definition collected (l : Loan) : bool :=
  truthy_id (loanId l) && negb (inherited (keyOf l)).

(** The entries of a page that addPosition can collect, keyed by loanId. *)
Definition keyed (loans : list Loan) : list (string * Loan) :=
  omap (λ l, if collected l then Some (keyOf l, l) else None) loans.

(** A hexadecimal digit. *)
Definition hexDigit (c : Ascii.ascii) : bool :=
  let n := Ascii.nat_of_ascii c in
  (Nat.leb 48 n && Nat.leb n 57) || (Nat.leb 97 n && Nat.leb n 102)
  || (Nat.leb 65 n && Nat.leb n 70).

(** A loanId as the ledger returns it: the contract's bytes32, which web3
    renders as "0x" followed by 64 hexadecimal digits. *)
Definition ledgerId (k : string) : bool :=
  String.prefix "0x" k
  && Nat.eqb (String.length k) 66
  && forallb hexDigit (String.list_ascii_of_string (String.substring 2 64 k)).

(** An entry returned by the ledger. *)
Definition fromLedger (l : Loan) : Prop :=
  ∃ k, loanId l = Some k ∧ ledgerId k = true.

(** The spec's reading of the collected set: the union of all returned
    entries keyed by loanId, the first entry of a loanId winning. *)
Definition union_of_entries (pages : list (list Loan)) : gmap string Loan :=
  list_to_map (map (λ l, (keyOf l, l)) (concat pages)).

(** *** Concrete data used by the examples *)

Definition conf0 : Conf := {| nrOfProcessingPositions := 10; waitBetweenRounds := 60 |}.

Definition loanA : Loan :=
  {| loanId := Some "0xa1"; loanToken := "0xd0c"; maxLiquidatable := 5 |}.

Definition loanB : Loan :=
  {| loanId := Some "0xb2"; loanToken := "0xd0c"; maxLiquidatable := 0 |}.

(** An entry whose loanId is the empty string. *)
Definition loanNoId : Loan :=
  {| loanId := Some ""; loanToken := "0xd0c"; maxLiquidatable := 7 |}.

(** Two entries with loanIds as the ledger returns them. *)
Definition idC : string :=
  "0x00000000000000000000000000000000000000000000000000000000000000c3".

Definition idD : string :=
  "0x00000000000000000000000000000000000000000000000000000000000000d4".

Definition loanC : Loan :=
  {| loanId := Some idC; loanToken := "0xd0c"; maxLiquidatable := 3 |}.

Definition loanD : Loan :=
  {| loanId := Some idD; loanToken := "0xd0c"; maxLiquidatable := 0 |}.

(** A second entry for the loanId of [loanC]. *)
Definition loanC' : Loan :=
  {| loanId := Some idC; loanToken := "0xd0c"; maxLiquidatable := 0 |}.

(** *** Notions used to describe runs of the scanner *)

(** An entry with [maxLiquidatable > 0], as a predicate on a binding. *)
Definition eligibleEntry (kv : string * Loan) : Prop :=
  0 < maxLiquidatable kv.2.

(** Every entry of a mapping sits under its own, non-empty loanId. *)
Definition own_keys (m : gmap string Loan) : Prop :=
  ∀ k l, m !! k = Some l → loanId l = Some k ∧ k ≠ "".

(** An answer after which the cursor moves on: a non-empty page. *)
Definition advances (r : LedgerReply) : bool :=
  match r with
  | CallbackResult (_ :: _) => true
  | _ => false
  end.

(** The number of pages taken since the cursor was last reset, [n] of them
    before the answers [replies]. *)
Fixpoint pagesSinceReset (replies : list LedgerReply) (n : nat) : nat :=
  match replies with
  | [] => n
  | r :: rest => pagesSinceReset rest (if advances r then S n else 0%nat)
  end.

End Scanner.

Module Liquidator.

Record Conf := {
  network : string;
  sovrynInternalTelegramId : string
}.

(** What liquidate and its handlers do to their collaborators and to the
    shared mapping, in the order of the statements. *)
Inductive Effect :=
| AddToQueue (purpose wallet loanId : string)
| RemoveFromQueue (purpose wallet loanId : string)
| DeleteLiquidation (loanId : string)
| SendLiquidateTx (loanId wallet : string) (amount nonce value : Z)
| GetPositionStatus (loanId : string)
| SendMessage (recipient msg : string).

(** The shared [liquidations] mapping, the wallet queue and the effects so
    far. *)
Record State := {
  liquidations : gmap string Loan;
  busy : gset (string * string * string);
  effects : list Effect
}.

(** Modelled from the spec: Wallet.addToQueue and Wallet.removeFromQueue
    (controller/wallet.js is not among the sources) add and remove the triple
    (purpose, wallet, target) of the busy set. *)
Definition addToQueue (purpose wallet loanId : string)
    (q : gset (string * string * string)) : gset (string * string * string) :=
  {[ (purpose, wallet, loanId) ]} ∪ q.

Definition removeFromQueue (purpose wallet loanId : string)
    (q : gset (string * string * string)) : gset (string * string * string) :=
  q ∖ {[ (purpose, wallet, loanId) ]}.

(** The answer to the transaction sent by liquidate: the promise of [send]
    resolves with the transaction or rejects. *)
Inductive TxOutcome :=
| TxResolved (transactionHash : string)
| TxRejected.

(** liquidate up to and including the submission of the transaction; the
    callbacks attached to the promise are [settle] below. *)
Definition liquidate (loanId wallet : string) (amount : Z) (token : string) (nonce : Z)
    (s : State) : State :=
  let val := if String.eqb token "rBtc" then amount else 0 in
  {| liquidations := delete loanId (liquidations s);
     busy := addToQueue "liquidator" wallet loanId (busy s);
     effects := effects s ++ [AddToQueue "liquidator" wallet loanId;
                              DeleteLiquidation loanId;
                              SendLiquidateTx loanId wallet amount nonce val] |}.

Definition newline : string := String (Ascii.ascii_of_nat 10) "".

Definition successMsg (conf : Conf) (loanId txHash : string) : string :=
  network conf +:+ "net-liquidation of loan " +:+ loanId +:+ " successful. "
    +:+ newline +:+ " " +:+ txHash.

Definition failedMsg (conf : Conf) (loanId : string) : string :=
  network conf +:+ "net-liquidation of loan " +:+ loanId +:+ " failed.".

Definition handleLiqSuccess (conf : Conf) (wallet loanId txHash : string) (s : State) : State :=
  {| liquidations := liquidations s;
     busy := removeFromQueue "liquidator" wallet loanId (busy s);
     effects := effects s ++ [RemoveFromQueue "liquidator" wallet loanId;
                              SendMessage (sovrynInternalTelegramId conf)
                                          (successMsg conf loanId txHash)] |}.

(** handleLiqError. [updatedLoan] is what C.getPositionStatus(loanId)
    delivers; [None] stands for a query that delivers no loan (the promise
    rejects, or reading [maxLiquidatable] of undefined throws): the handler
    then ends after the query. *)
Definition handleLiqError (conf : Conf) (wallet loanId : string)
    (updatedLoan : option Loan) (s : State) : State :=
  {| liquidations := liquidations s;
     busy := removeFromQueue "liquidator" wallet loanId (busy s);
     effects := effects s ++ [RemoveFromQueue "liquidator" wallet loanId;
                              GetPositionStatus loanId] ++
       match updatedLoan with
       | Some u =>
           if 0 <? maxLiquidatable u
           then [SendMessage (sovrynInternalTelegramId conf) (failedMsg conf loanId)]
           else []
       | None => []
       end |}.

(** The callbacks of [.then(...).catch(...)]. The [then] callback calls
    handleLiqSuccess and then evaluates the identifier [addLiqLog], which is
    a method of the class and not a binding in scope: a ReferenceError, which
    rejects the promise of [then], so the [catch] callback runs as well. *)
Definition settle (conf : Conf) (wallet loanId : string) (o : TxOutcome)
    (updatedLoan : option Loan) (s : State) : State :=
  match o with
  | TxResolved txHash =>
      handleLiqError conf wallet loanId updatedLoan
        (handleLiqSuccess conf wallet loanId txHash s)
  | TxRejected => handleLiqError conf wallet loanId updatedLoan s
  end.

(** The messages sent to the operator channel, and how often a loan was
    deleted from [liquidations]. *)
Definition messages (es : list Effect) : list (string * string) :=
  omap (λ e, match e with SendMessage r m => Some (r, m) | _ => None end) es.

Definition isDeletion (loanId : string) (e : Effect) : bool :=
  match e with
  | DeleteLiquidation k => String.eqb k loanId
  | _ => false
  end.

Definition deletions (loanId : string) (es : list Effect) : nat :=
  length (List.filter (isDeletion loanId) es).

(** *** Concrete data used by the examples *)

Definition mainnet : Conf :=
  {| network := "main"; sovrynInternalTelegramId := "-1001" |}.

Definition eligible : Loan :=
  {| loanId := Some "0xa1"; loanToken := "0xd0c"; maxLiquidatable := 5 |}.

Definition settled : Loan :=
  {| loanId := Some "0xa1"; loanToken := "0xd0c"; maxLiquidatable := 0 |}.

(** The loan 0xa1 waits in [liquidations]; no wallet is busy. *)
Definition waiting : State :=
  {| liquidations := {[ "0xa1" := eligible ]}; busy := ∅; effects := [] |}.

(** *** One round of checkPositionsForLiquidations *)

(** What the wallet allocator and the node answer for one candidate:
    Wallet.checkIfPositionExists(p) is true; or Wallet.getWallet delivers no
    wallet; or it delivers the wallet [adr], for which getTransactionCount
    gives [nonce]. *)
Inductive WalletReply :=
| AlreadyQueued
| NoWallet
| WalletFound (adr : string) (nonce : Z).

Definition noWalletMsg (conf : Conf) (loanId : string) : string :=
  network conf +:+ "net-liquidation of loan " +:+ loanId
    +:+ " failed because no wallet with enough funds was found.".

Definition handleNoWalletError (conf : Conf) (loanId : string) (s : State) : State :=
  {| liquidations := liquidations s;
     busy := busy s;
     effects := effects s ++ [SendMessage (sovrynInternalTelegramId conf)
                                          (noWalletMsg conf loanId)] |}.

(** [pos.loanToken == conf.testTokenRBTC ? "rBtc" : pos.loanToken]. *)
Definition tokenOf (testTokenRBTC : string) (pos : Loan) : string :=
  if String.eqb (loanToken pos) testTokenRBTC then "rBtc" else loanToken pos.

(** The body of [for (let p in this.liquidations)] for the key [p]; a key
    that has been deleted before the loop reaches it is not visited. The
    one-second pause after a dispatch is not recorded. *)
Definition visit (conf : Conf) (testTokenRBTC : string) (answer : string → WalletReply)
    (p : string) (s : State) : State :=
  match liquidations s !! p with
  | None => s
  | Some pos =>
      match answer p with
      | AlreadyQueued => s
      | NoWallet => handleNoWalletError conf p s
      | WalletFound adr nonce =>
          liquidate p adr (maxLiquidatable pos) (tokenOf testTokenRBTC pos) nonce s
      end
  end.

(** One round over the keys [keys], in the order the for-in loop takes them. *)
Fixpoint checkPositionsForLiquidations (conf : Conf) (testTokenRBTC : string)
    (answer : string → WalletReply) (keys : list string) (s : State) : State :=
  match keys with
  | [] => s
  | p :: rest =>
      checkPositionsForLiquidations conf testTokenRBTC answer rest
        (visit conf testTokenRBTC answer p s)
  end.

(** The transactions among the effects. *)
Definition transactions (es : list Effect) : list Effect :=
  List.filter (λ e, match e with SendLiquidateTx _ _ _ _ _ => true | _ => false end) es.

(** What visiting [p] adds to the effects when the candidate stored under
    [p] is [pos]. *)
Definition visitEffects (conf : Conf) (testTokenRBTC : string)
    (answer : string → WalletReply) (p : string) (pos : option Loan) : list Effect :=
  match pos with
  | None => []
  | Some pos =>
      match answer p with
      | AlreadyQueued => []
      | NoWallet =>
          [SendMessage (sovrynInternalTelegramId conf) (noWalletMsg conf p)]
      | WalletFound adr nonce =>
          [AddToQueue "liquidator" adr p;
           DeleteLiquidation p;
           SendLiquidateTx p adr (maxLiquidatable pos) nonce
             (if String.eqb (loanToken pos) testTokenRBTC
                 || String.eqb (loanToken pos) "rBtc"
              then maxLiquidatable pos else 0)]
      end
  end.

(** The wallet answer is a found wallet. *)
Definition found (r : WalletReply) : bool :=
  match r with
  | WalletFound _ _ => true
  | _ => false
  end.

End Liquidator.

Module Arbitrage.

(** ** JavaScript numbers *)

(** ToBoolean of a number: NaN, +0 and -0 are falsy. *)
Definition truthyNum (x : float) : bool :=
  negb (is_nan x || is_zero x).

(** Math.min of two numbers: NaN when either is NaN, and -0 below +0. *)
Definition Math_min (a b : float) : float :=
  if is_nan a || is_nan b then nan
  else if (a <? b)%float then a
  else if (b <? a)%float then b
  else if get_sign a then a else b.

(** [Number(v)] for an argument that may have been left out: Number(undefined)
    is NaN. *)
Definition Number_ (v : option float) : float :=
  match v with
  | Some x => x
  | None => nan
  end.

(** Amounts travel as integers of wei. [fromWei(w, "Ether")] is the decimal
    string of w / 10^18 and is represented by [w] itself; read as a number
    (in a comparison, in arithmetic or by [Number]) it is the binary64
    nearest to w / 10^18. *)
Definition etherNumber (w : Z) : float :=
  match w with
  | Zpos p =>
      SF2Prim (SFdiv prec emax (S754_finite false p 0)
                                (S754_finite false (10 ^ 18) 0))
  | _ => 0%float
  end.

(** [String.prototype.toLowerCase] on strings of ASCII characters, which
    the token addresses it is applied to are ("0x" and hexadecimal digits):
    the letters A to Z are folded, every other character is left as it is.
    JavaScript also folds letters outside ASCII; those do not occur in an
    address. *)
Definition lowerAscii (c : Ascii.ascii) : Ascii.ascii :=
  let n := Ascii.nat_of_ascii c in
  if (Nat.leb 65 n && Nat.leb n 90)%bool then Ascii.ascii_of_nat (n + 32) else c.

Fixpoint toLowerCase (s : string) : string :=
  match s with
  | EmptyString => EmptyString
  | String c rest => String (lowerAscii c) (toLowerCase rest)
  end.

(** ** Configuration and collaborators *)

Record Conf := {
  thresholdArbitrage : float;
  arbitrageScanInterval : Z;
  docToken : string;
  testTokenRBTC : string
}.

Inductive Currency := Doc | Rbtc.

(** [this.amount = 0.010] and [toWei(this.amount.toString())]. *)
Definition amount : float := 0.010%float.
Definition amountWei : Z := 10 ^ 16.

(** The record handed to db.addArbitrage. *)
Record ArbitrageRecord := {
  adr : string;
  recFromToken : string;
  recToToken : string;
  recFromAmount : float;
  recToAmount : float;
  profit : float;
  trade : string
}.

Inductive Effect :=
| ConvertByPath (path : list string) (amountWei minReturn value : Z)
| AddArbitrage (r : ArbitrageRecord)
| WasteTime (secs : Z).

(** A promise is resolved with a value, or nothing ever settles it. *)
Inductive Promise (A : Type) :=
| Resolved (v : A)
| Pending.
Arguments Resolved {A} v.
Arguments Pending {A}.

(** What the swap network answers to conversionPath(...).call(cb): the call
    itself throws, or the callback receives (error, result). *)
Inductive PathReply :=
| PathThrows
| PathCallback (error : bool) (result : option (list string)).

(** What convertByPath(...).send(...) does: its promise resolves
    ([SwapResolved] carries the transaction) or rejects, or the call itself
    throws. *)
Inductive SwapReply :=
| SwapResolved (tx : string)
| SwapRejected
| SwapThrows.

(** The parameters of a decoded Conversion event (amounts in wei). *)
Record ConversionEvent := {
  fromToken : string;
  toToken : string;
  fromAmount : Z;
  toAmount : Z;
  trader : string
}.

Record DecodedLog := {
  name : string;
  events : option ConversionEvent
}.

(** What getTransactionReceipt delivers: it throws, or the receipt has no
    logs, or the logs as decoded by abiDecoder. *)
Inductive ReceiptReply :=
| ReceiptThrows
| ReceiptNoLogs
| ReceiptLogs (logs : list DecodedLog).

(** ** calcArbitrage *)

(** [None] is the [return;] of the source (undefined). *)
Definition calcArbitrage (p1 p2 threshold : float) : option float :=
  let smallerAmount := Math_min p1 p2 in
  let arbitrage := (abs (p1 - p2) / smallerAmount * 100)%float in
  if (threshold <=? arbitrage)%float then Some smallerAmount else None.

(** ** start: which trade, if any *)

Inductive Trade :=
| SendLiquidity (amountWei : Z) (currency : Currency).

(** Lines 43 to 52 of start, for the quotes [p0] (AMM) and [p1] (price feed)
    of getRBtcPrices. [toWei(p[0].toString(), "Ether")] is [p0]. *)
Definition start_trade (conf : Conf) (p0 p1 : Z) : option Trade :=
  let arb :=
    if ((0 <? etherNumber p0) && (0 <? etherNumber p1))%float
    then calcArbitrage (etherNumber p0) (etherNumber p1) (thresholdArbitrage conf)
    else None in
  match arb with
  | Some a =>
      if truthyNum a && (a =? etherNumber p0)%float then Some (SendLiquidity p0 Doc)
      else if truthyNum a && (a =? etherNumber p1)%float then Some (SendLiquidity amountWei Rbtc)
      else None
  | None => None
  end.

(** ** sendLiquidity *)

(** [error || !result || result.length != 3]. *)
Definition badPath (error : bool) (result : option (list string)) : bool :=
  error ||
  match result with
  | None => true
  | Some path => negb (Nat.eqb (length path) 3)
  end.

(** The callback given to conversionPath(...).call. In the error branch the
    argument of console.error reads [contract._address], and no [contract] is
    in scope (the bindings are [contract1] and [contract2]): a ReferenceError
    is thrown before [return resolve()] is reached. Otherwise the swap is
    submitted and the promise resolves according to its outcome; when
    convertByPath(...).send(...) itself throws, nothing is submitted and the
    error leaves the callback. *)
Definition pathCallback (amountWei : Z) (currency : Currency)
    (error : bool) (result : option (list string)) (swap : SwapReply)
  : Completion (list Effect * option string) :=
  if badPath error result then Throw ReferenceError
  else
    let val := match currency with Doc => 0 | Rbtc => amountWei end in
    match swap with
    | SwapResolved tx =>
        Normal ([ConvertByPath (default [] result) amountWei 1 val], Some tx)
    | SwapRejected =>
        Normal ([ConvertByPath (default [] result) amountWei 1 val], None)
    | SwapThrows => Throw LibraryError
    end.

(** sendLiquidity: the effects and the state of the promise it returns. A
    throw of the call itself is caught and resolves to undefined; a throw
    inside the callback happens after the executor has returned, outside its
    try block, and leaves the promise pending. *)
Definition sendLiquidity (amountWei : Z) (currency : Currency)
    (path : PathReply) (swap : SwapReply) : list Effect * Promise (option string) :=
  match path with
  | PathThrows => ([], Resolved None)
  | PathCallback error result =>
      match pathCallback amountWei currency error result swap with
      | Normal (es, res) => (es, Resolved res)
      | Throw _ => ([], Pending)
      end
  end.

(** ** calculateProfit *)

(** calculateProfit(txHash, btcPriceFeed). [txHash] only travels to
    getTransactionReceipt, whose answer is [receipt]; [btcPriceFeed] is
    [None] when the caller passes no second argument. A receipt that cannot
    be read, has no Conversion event or no parameters persists nothing. *)
Definition calculateProfit (conf : Conf) (receipt : ReceiptReply)
    (btcPriceFeed : option float) : list Effect :=
  match receipt with
  | ReceiptLogs logs =>
      match List.find (λ log, String.eqb (name log) "Conversion") logs with
      | Some conversionEvent =>
          match events conversionEvent with
          | Some e =>
              let priceFeed := (Number_ btcPriceFeed / amount)%float in
              let fromAmount := etherNumber (fromAmount e) in
              let toAmount := etherNumber (toAmount e) in
              let '(toAmountWithPFeed, trade) :=
                if String.eqb (toLowerCase (fromToken e)) (toLowerCase (testTokenRBTC conf))
                then ((fromAmount * priceFeed)%float, "sell btc")
                else ((fromAmount / priceFeed)%float, "buy btc") in
              let profit := (toAmount - toAmountWithPFeed)%float in
              [AddArbitrage {| adr := trader e;
                               recFromToken := fromToken e;
                               recToToken := toToken e;
                               recFromAmount := fromAmount;
                               recToAmount := toAmount;
                               profit := profit;
                               trade := trade |}]
          | None => []
          end
      | None => []
      end
  | _ => []
  end.

(** ** One round of start *)

Inductive RoundEnd :=
| RoundCompleted
| RoundSuspended.

(** One round of the [while (true)] loop of start. The call on line 54 is
    [this.calculateProfit(res)]: the second parameter, [btcPriceFeed], gets
    no argument. A round whose [await this.sendLiquidity(...)] waits on a
    pending promise never reaches its end. *)
Definition start_round (conf : Conf) (p0 p1 : Z) (path : PathReply) (swap : SwapReply)
    (receipt : ReceiptReply) : list Effect * RoundEnd :=
  match start_trade conf p0 p1 with
  | None => ([WasteTime (arbitrageScanInterval conf)], RoundCompleted)
  | Some (SendLiquidity a c) =>
      match sendLiquidity a c path swap with
      | (es, Pending) => (es, RoundSuspended)
      | (es, Resolved None) =>
          (es ++ [WasteTime (arbitrageScanInterval conf)], RoundCompleted)
      | (es, Resolved (Some _)) =>
          (es ++ calculateProfit conf receipt None
              ++ [WasteTime (arbitrageScanInterval conf)], RoundCompleted)
      end
  end.

(** The records handed to db.addArbitrage. *)
Definition persisted (es : list Effect) : list ArbitrageRecord :=
  omap (λ e, match e with AddArbitrage r => Some r | _ => None end) es.

(** *** Concrete data used by the examples *)

Definition ether (n : Z) : Z := n * 10 ^ 18.

Definition confAt (threshold : float) : Conf :=
  {| thresholdArbitrage := threshold;
     arbitrageScanInterval := 60;
     docToken := "0xD0C";
     testTokenRBTC := "0xB7C" |}.

(** A Conversion event of 1 RBtc into 105 Doc. *)
Definition conversionLog : DecodedLog :=
  {| name := "Conversion";
     events := Some {| fromToken := "0xb7c"; toToken := "0xD0C";
                       fromAmount := ether 1; toAmount := ether 105;
                       trader := "0x7ade" |} |}.

(** A Conversion event of the notional 0.01 RBtc into 1.02 Doc. *)
Definition notionalLog : DecodedLog :=
  {| name := "Conversion";
     events := Some {| fromToken := "0xb7c"; toToken := "0xD0C";
                       fromAmount := amountWei; toAmount := 102 * 10 ^ 16;
                       trader := "0x7ade" |} |}.

(** ** The decision rule in exact arithmetic *)

(** The rule as the specification words it, read over the rationals: for
    positive quotes [a] and [b] in wei and a threshold of [num]/[den]
    percent ([den] positive), |a - b| / min(a, b) × 100 ≥ num / den. *)
Definition exactRule (a b num den : Z) : bool :=
  num * Z.min a b <=? Z.abs (a - b) * 100 * den.

(** ** The price queries *)

(** What the price feed answers to queryReturn(...).call(cb): the call
    itself throws, the callback receives an error, or it receives the quoted
    amount in wei. *)
Inductive QuoteReply :=
| QuoteThrows
| QuoteError
| QuoteResult (wei : Z).

(** getPriceFromPriceFeed: [resolve(0)] in the catch block and on a callback
    error, [resolve(result)] otherwise. *)
Definition getPriceFromPriceFeed (r : QuoteReply) : Z :=
  match r with
  | QuoteResult wei => wei
  | _ => 0
  end.

(** What rateByPath(result, amount).call(cb) answers, inside the callback of
    conversionPath. *)
Inductive RateReply :=
| RateThrows
| RateError
| RateResult (wei : Z).

(** What the swap network answers to getPriceFromAmm: conversionPath throws,
    or its callback receives an error, or it receives a path and rateByPath
    is asked. *)
Inductive AmmReply :=
| AmmPathThrows
| AmmPathError
| AmmPath (rate : RateReply).

(** getPriceFromAmm: [resolve(0)] in the catch block and on either callback
    error, [resolve(res)] with the rate; a throw of rateByPath(...).call
    happens inside the first callback, outside the try block, and leaves the
    promise pending. *)
Definition getPriceFromAmm (r : AmmReply) : Promise Z :=
  match r with
  | AmmPathThrows => Resolved 0
  | AmmPathError => Resolved 0
  | AmmPath RateThrows => Pending
  | AmmPath RateError => Resolved 0
  | AmmPath (RateResult wei) => Resolved wei
  end.

(** getRBtcPrices: the AMM quote first, then the price feed quote, each
    turned into ether by fromWei (an amount stays the integer of wei that it
    is). *)
Definition getRBtcPrices (amm : AmmReply) (pf : QuoteReply) : Promise (Z * Z) :=
  match getPriceFromAmm amm with
  | Resolved rBtcPriceAmm => Resolved (rBtcPriceAmm, getPriceFromPriceFeed pf)
  | Pending => Pending
  end.

(** ** start, round after round *)

(** What the collaborators answer during one round. *)
Record RoundInput := {
  ammReply : AmmReply;
  pfReply : QuoteReply;
  pathReply : PathReply;
  swapReply : SwapReply;
  receiptReply : ReceiptReply
}.

(** One round of start from the price queries on. *)
Definition round (conf : Conf) (i : RoundInput) : list Effect * RoundEnd :=
  match getRBtcPrices (ammReply i) (pfReply i) with
  | Resolved (p0, p1) =>
      start_round conf p0 p1 (pathReply i) (swapReply i) (receiptReply i)
  | Pending => ([], RoundSuspended)
  end.

(** The [while (true)] loop of start over the answers of successive rounds;
    a suspended round is the last one. *)
Fixpoint start (conf : Conf) (rounds : list RoundInput) : list Effect * RoundEnd :=
  match rounds with
  | [] => ([], RoundCompleted)
  | i :: rest =>
      match round conf i with
      | (es, RoundCompleted) =>
          let '(es', e) := start conf rest in (es ++ es', e)
      | (es, RoundSuspended) => (es, RoundSuspended)
      end
  end.

(** A price query of the round failed in one of the ways the code answers
    with the quote 0. *)
Definition quoteFailed (i : RoundInput) : bool :=
  match ammReply i with
  | AmmPathThrows | AmmPathError | AmmPath RateError => true
  | AmmPath RateThrows => false
  | AmmPath (RateResult _) =>
      match pfReply i with
      | QuoteResult _ => false
      | _ => true
      end
  end.

(** The swaps among the effects. *)
Definition swaps (es : list Effect) : list Effect :=
  List.filter (λ e, match e with ConvertByPath _ _ _ _ => true | _ => false end) es.

(** The pauses among the effects. *)
Definition pauses (es : list Effect) : list Effect :=
  List.filter (λ e, match e with WasteTime _ => true | _ => false end) es.

End Arbitrage.

(** * Properties of the position scanner *)

Module ScannerProps.
Import Scanner.

(** *** addPosition, entry by entry *)

Lemma addOne_skip l pos liq :
  truthy_id (loanId l) = false → addOne l pos liq = (pos, liq).
Proof. unfold addOne. by intros ->. Qed.

Lemma addOne_present l pos liq v :
  pos !! keyOf l = Some v → addOne l pos liq = (pos, liq).
Proof. unfold addOne, positionsHas. intros ->. by destruct (truthy_id _). Qed.

(** An entry whose loanId names an inherited property is never inserted. *)
Lemma addOne_inherited l pos liq :
  inherited (keyOf l) = true → addOne l pos liq = (pos, liq).
Proof.
  unfold addOne, positionsHas. intros ->.
  by destruct (truthy_id _), (pos !! keyOf l).
Qed.

Lemma collected_truthy l :
  collected l = true → truthy_id (loanId l) = true ∧ inherited (keyOf l) = false.
Proof.
  unfold collected. intros [Ht Hi]%andb_true_iff.
  by apply negb_true_iff in Hi.
Qed.

Lemma addOne_fresh l pos liq :
  collected l = true → pos !! keyOf l = None →
  addOne l pos liq =
    (<[keyOf l := l]> pos,
     if 0 <? maxLiquidatable l then <[keyOf l := l]> liq else liq).
Proof.
  intros [Ht Hi]%collected_truthy Hn. unfold addOne, positionsHas.
  by rewrite Ht, Hn, Hi.
Qed.

Lemma truthy_id_key l :
  truthy_id (loanId l) = true → loanId l = Some (keyOf l) ∧ keyOf l ≠ "".
Proof.
  unfold keyOf. destruct (loanId l) as [[|a s]|]; simpl; try discriminate.
  intros _. split; [reflexivity | discriminate].
Qed.

Lemma collected_key l :
  collected l = true → loanId l = Some (keyOf l) ∧ keyOf l ≠ "".
Proof. intros [Ht _]%collected_truthy. by apply truthy_id_key. Qed.

(** The three ways one entry can go. *)
Lemma addOne_cases l pos liq :
  addOne l pos liq = (pos, liq) ∧
    (collected l = false ∨ is_Some (pos !! keyOf l))
  ∨ collected l = true ∧ pos !! keyOf l = None ∧
    addOne l pos liq =
      (<[keyOf l := l]> pos,
       if 0 <? maxLiquidatable l then <[keyOf l := l]> liq else liq).
Proof.
  destruct (collected l) eqn:Hc.
  - destruct (pos !! keyOf l) as [v|] eqn:Hk.
    + left. split; [by eapply addOne_present | right; eauto].
    + right. by rewrite addOne_fresh.
  - left. split; [|by left].
    apply andb_false_iff in Hc as [Ht|Hi].
    + by apply addOne_skip.
    + apply addOne_inherited. by apply negb_false_iff in Hi.
Qed.

Lemma addPosition_cons l rest pos liq :
  addPosition (l :: rest) pos liq =
  addPosition rest (addOne l pos liq).1 (addOne l pos liq).2.
Proof. simpl. by destruct (addOne l pos liq). Qed.

(** An entry already in [positions] is never overwritten. *)
Lemma addPosition_keeps loans pos liq k v :
  pos !! k = Some v → (addPosition loans pos liq).1 !! k = Some v.
Proof.
  revert pos liq. induction loans as [|l rest IH]; intros pos liq Hk; [done|].
  rewrite addPosition_cons. apply IH.
  destruct (addOne_cases l pos liq) as [[-> _]|(_ & Hn & ->)]; simpl; [done|].
  rewrite lookup_insert_ne; [done | congruence].
Qed.

(** While a key is in [positions], [liquidations] is not touched at that key. *)
Lemma addPosition_liq_untouched loans pos liq k :
  is_Some (pos !! k) → (addPosition loans pos liq).2 !! k = liq !! k.
Proof.
  revert pos liq. induction loans as [|l rest IH]; intros pos liq [v Hk]; [done|].
  rewrite addPosition_cons.
  destruct (addOne_cases l pos liq) as [[-> _]|(_ & Hn & ->)]; simpl.
  - apply IH; eauto.
  - assert (keyOf l ≠ k) by congruence.
    rewrite IH; [|rewrite lookup_insert_ne; eauto].
    destruct (0 <? maxLiquidatable l); [by rewrite lookup_insert_ne|done].
Qed.

Lemma union_insert_present (m1 m2 : gmap string Loan) k x y :
  m1 !! k = Some y → m1 ∪ <[k := x]> m2 = m1 ∪ m2.
Proof.
  intros Hk. apply map_eq; intros i.
  rewrite !lookup_union.
  destruct (decide (i = k)) as [->|Hne].
  - rewrite Hk. by rewrite !union_Some_l.
  - by rewrite lookup_insert_ne.
Qed.

Lemma keyed_cons_skip l rest :
  collected l = false → keyed (l :: rest) = keyed rest.
Proof. unfold keyed; simpl. by intros ->. Qed.

Lemma keyed_cons_keep l rest :
  collected l = true → keyed (l :: rest) = (keyOf l, l) :: keyed rest.
Proof. unfold keyed; simpl. by intros ->. Qed.

(** [positions] after addPosition: what was there, plus the entries that are
    not skipped, first come first kept. *)
Lemma addPosition_positions loans pos liq :
  (addPosition loans pos liq).1 = pos ∪ list_to_map (keyed loans).
Proof.
  revert pos liq. induction loans as [|l rest IH]; intros pos liq.
  - simpl. by rewrite (right_id_L ∅ (∪)).
  - rewrite addPosition_cons, IH.
    destruct (addOne_cases l pos liq) as [[-> [Hf|[v Hv]]]|(Ht & Hn & ->)];
      cbn [fst snd].
    + by rewrite keyed_cons_skip.
    + destruct (collected l) eqn:Ht.
      * rewrite keyed_cons_keep by done. cbn [list_to_map foldr uncurry].
        by erewrite union_insert_present.
      * by rewrite keyed_cons_skip.
    + rewrite keyed_cons_keep by done. cbn [list_to_map foldr uncurry].
      rewrite <- insert_union_l. by rewrite insert_union_r.
Qed.


(** *** The loop *)

(** A page that is an array never throws; a non-empty one advances the
    cursor, an empty one ends the cycle. *)
Lemma iteration_nonempty conf page s :
  page ≠ [] →
  iteration conf (CallbackResult page) s =
    Normal {| from := to s;
              to := to s + nrOfProcessingPositions conf;
              positions := (addPosition page (positions s) (liquidations s)).1;
              liquidations := (addPosition page (positions s) (liquidations s)).2;
              effects := effects s ++ [WasteTime 1] |}.
Proof.
  intros Hne. unfold iteration; simpl.
  destruct (addPosition page (positions s) (liquidations s)) as [p1 l1].
  rewrite bool_decide_eq_true_2; [done|].
  destruct page; [done | simpl; lia].
Qed.

Lemma iteration_empty conf s :
  iteration conf (CallbackResult []) s =
    Normal {| from := 0;
              to := nrOfProcessingPositions conf;
              positions := ∅;
              liquidations := liquidations s;
              effects := effects s ++ [LogActivePositions (size (positions s));
                                       WasteTime (waitBetweenRounds conf)] |}.
Proof. reflexivity. Qed.

(** The catch block of loadActivePositions resolves to [false], and the loop
    takes that for an empty page. *)
Lemma call_throws_as_empty_page conf s :
  iteration conf CallThrows s = iteration conf (CallbackResult []) s.
Proof. reflexivity. Qed.

(** The loop goes on from the state the first answers left. *)
Lemma loop_app conf rs1 rs2 s t :
  loop conf rs1 s = Normal t → loop conf (rs1 ++ rs2) s = loop conf rs2 t.
Proof.
  revert s. induction rs1 as [|r rs1 IH]; intros s; cbn [app loop].
  - by intros [= ->].
  - destruct (iteration conf r s); [apply IH | discriminate].
Qed.

(** A run of non-empty pages. *)
Lemma loop_nonempty_pages conf pages s :
  Forall (λ page, page ≠ []) pages →
  ∃ s1, loop conf (map CallbackResult pages) s = Normal s1 ∧
        positions s1 = positions s ∪ list_to_map (keyed (concat pages)) ∧
        to s1 = to s + Z.of_nat (length pages) * nrOfProcessingPositions conf ∧
        (to s = from s + nrOfProcessingPositions conf →
         to s1 = from s1 + nrOfProcessingPositions conf).
Proof.
  intros Hall. revert s. induction Hall as [|page pages Hne _ IH]; intros s.
  - exists s. simpl. rewrite (right_id_L ∅ (∪)). repeat split; [lia | done].
  - cbn [map loop]. rewrite iteration_nonempty by done.
    destruct (IH {| from := to s;
                    to := to s + nrOfProcessingPositions conf;
                    positions := (addPosition page (positions s) (liquidations s)).1;
                    liquidations := (addPosition page (positions s) (liquidations s)).2;
                    effects := effects s ++ [WasteTime 1] |})
      as (s1 & Hrun & Hpos & Hto & Hwin).
    cbn [from to positions] in Hpos, Hto, Hwin.
    exists s1. split; [done|]. split; [|split].
    + rewrite Hpos, addPosition_positions. cbn [concat].
      unfold keyed. rewrite omap_app. rewrite list_to_map_app.
      by rewrite (assoc_L (∪)).
    + rewrite Hto. cbn [length]. lia.
    + intros _. by apply Hwin.
Qed.

(** ** The claims about the scanner *)

(** C1 (code evaluated at the failing input). When the ledger's callback
    reports an error, loadActivePositions resolves to undefined, the guard
    [if (pos)] is passed over, and [pos.length] throws a TypeError: the
    iteration does not reach the end-of-cycle branch and the loop is left,
    whatever the ledger would have answered next. *)
Theorem callback_error_leaves_loop conf s rest :
  loadActivePositions CallbackError = JsUndefined ∧
  iteration conf CallbackError s = Throw TypeError ∧
  loop conf (CallbackError :: rest) s = Throw TypeError ∧
  iteration conf (CallbackResult []) s ≠ iteration conf CallbackError s.
Proof. repeat split. rewrite iteration_empty. discriminate. Qed.




(** An entry whose loanId is the name of a property of Object.prototype is
    skipped, as one with an empty loanId is: [this.positions["constructor"]]
    is truthy on an empty object. *)
Example inherited_name_is_skipped :
  addPosition [{| loanId := Some "constructor"; loanToken := "0xd0c";
                  maxLiquidatable := 7 |}; loanNoId] ∅ ∅ = (∅, ∅).
Proof. reflexivity. Qed.

(** A loanId as the ledger returns it is not empty and names no inherited
    property: an entry of the ledger is one addPosition can collect. *)
Lemma ledger_collected l : fromLedger l → collected l = true.
Proof.
  intros (k & Hid & Hk). unfold collected, keyOf. rewrite Hid.
  unfold ledgerId in Hk. apply andb_true_iff in Hk as [Hk _].
  apply andb_true_iff in Hk as [Hk _].
  destruct k as [|a k]; [done|]. cbn [String.prefix] in Hk.
  destruct (Ascii.ascii_dec _ a) as [<-|]; [|done]. reflexivity.
Qed.

Lemma keyed_ledger loans :
  Forall fromLedger loans → keyed loans = map (λ l, (keyOf l, l)) loans.
Proof.
  induction 1 as [|l loans Hl _ IH]; [done|].
  rewrite keyed_cons_keep by by apply ledger_collected. cbn [map]. by rewrite IH.
Qed.

(** C4. For non-empty pages returned by the ledger followed by the empty
    page: when the empty page arrives [positions] is what it was at the start
    (empty, after a reset) together with the union of all entries returned on
    those pages, keyed by loanId, an existing key never being overwritten;
    the cursor has moved by the page size for each page; and only the empty
    page resets the cursor to (0, nrOfProcessingPositions) and empties
    [positions]. *)
Theorem cycle_collects_ledger_pages conf (pages : list (list Loan)) s :
  Forall (λ page, page ≠ [] ∧ Forall fromLedger page) pages →
  to s = from s + nrOfProcessingPositions conf →
  ∃ s1 s2,
    loop conf (map CallbackResult pages) s = Normal s1 ∧
    loop conf (map CallbackResult pages ++ [CallbackResult []]) s = Normal s2 ∧
    positions s1 = positions s ∪ union_of_entries pages ∧
    (positions s = ∅ → positions s1 = union_of_entries pages) ∧
    (∀ k v, positions s !! k = Some v → positions s1 !! k = Some v) ∧
    from s1 = from s + Z.of_nat (length pages) * nrOfProcessingPositions conf ∧
    to s1 = from s1 + nrOfProcessingPositions conf ∧
    positions s2 = ∅ ∧
    from s2 = 0 ∧
    to s2 = nrOfProcessingPositions conf ∧
    effects s2 = effects s1 ++ [LogActivePositions (size (positions s1));
                                WasteTime (waitBetweenRounds conf)].
Proof.
  intros Hall Hwin.
  assert (Forall (λ page, page ≠ []) pages) as Hne.
  { eapply Forall_impl; [exact Hall|]. by intros page [? _]. }
  assert (keyed (concat pages) = map (λ l, (keyOf l, l)) (concat pages)) as Hkeyed.
  { apply keyed_ledger, Forall_concat.
    eapply Forall_impl; [exact Hall|]. by intros page [_ ?]. }
  destruct (loop_nonempty_pages conf pages s Hne) as (s1 & Hrun & Hpos & Hto & Hw).
  rewrite Hkeyed in Hpos. fold (union_of_entries pages) in Hpos.
  exists s1. eexists. split; [done|]. split.
  { rewrite (loop_app _ _ _ _ _ Hrun). cbn [loop]. by rewrite iteration_empty. }
  cbn [positions from to effects].
  split; [done|]. split.
  { intros He. rewrite Hpos, He. by rewrite (left_id_L ∅ (∪)). }
  split.
  { intros k v Hk. rewrite Hpos. by apply lookup_union_Some_l. }
  specialize (Hw Hwin). repeat split; try done. lia.
Qed.

Lemma cycle_collects_ledger_pages_witness :
  ∃ s1 s2,
    loop conf0 (map CallbackResult [[loanC; loanD]; [loanC'; loanD]])
      {| from := 0; to := 10; positions := ∅; liquidations := ∅; effects := [] |}
      = Normal s1 ∧
    loop conf0 (map CallbackResult [[loanC; loanD]; [loanC'; loanD]] ++ [CallbackResult []])
      {| from := 0; to := 10; positions := ∅; liquidations := ∅; effects := [] |}
      = Normal s2 ∧
    positions s1 = union_of_entries [[loanC; loanD]; [loanC'; loanD]] ∧
    positions s1 = <[idC := loanC]> (<[idD := loanD]> ∅) ∧
    from s1 = 20 ∧ to s1 = 30 ∧
    positions s2 = ∅ ∧ from s2 = 0 ∧ to s2 = 10.
Proof.
  destruct (cycle_collects_ledger_pages conf0 [[loanC; loanD]; [loanC'; loanD]]
              {| from := 0; to := 10; positions := ∅; liquidations := ∅; effects := [] |})
    as (s1 & s2 & H1 & H2 & _ & H4 & _ & H5 & H6 & H7 & H8 & H9 & _).
  - repeat constructor; try discriminate;
      (eexists; split; [reflexivity | vm_compute; reflexivity]).
  - reflexivity.
  - exists s1, s2. rewrite H6, H5, (H4 eq_refl).
    split; [assumption|]. split; [assumption|]. split; [reflexivity|].
    split; [vm_compute; reflexivity|]. repeat split; try assumption.
Defined.

(** Where the keys of the two mappings come from. *)
Lemma addPosition_dom_pos loans pos liq k :
  k ∈ dom ((addPosition loans pos liq).1) →
  k ∈ dom pos ∨ k ≠ "" ∧ ∃ l, l ∈ loans ∧ loanId l = Some k.
Proof.
  revert pos liq. induction loans as [|l rest IH]; intros pos liq; [by left|].
  rewrite addPosition_cons. intros Hk. apply IH in Hk.
  destruct Hk as [Hk|(Hne & l' & Hin & Hid)].
  - destruct (addOne_cases l pos liq) as [[Heq _]|(Ht & _ & Heq)];
      rewrite Heq in Hk; cbn [fst] in Hk; [by left|].
    rewrite dom_insert_L in Hk. apply elem_of_union in Hk as [Hk|Hk]; [|by left].
    apply elem_of_singleton in Hk as ->.
    destruct (collected_key l Ht) as [Hid Hne].
    right. split; [done|]. exists l. split; [apply list_elem_of_here | done].
  - right. split; [done|]. exists l'. split; [by apply list_elem_of_further | done].
Qed.

Lemma addPosition_dom_liq loans pos liq k :
  k ∈ dom ((addPosition loans pos liq).2) →
  k ∈ dom liq ∨ k ≠ "" ∧ ∃ l, l ∈ loans ∧ loanId l = Some k.
Proof.
  revert pos liq. induction loans as [|l rest IH]; intros pos liq; [by left|].
  rewrite addPosition_cons. intros Hk. apply IH in Hk.
  destruct Hk as [Hk|(Hne & l' & Hin & Hid)].
  - destruct (addOne_cases l pos liq) as [[Heq _]|(Ht & _ & Heq)];
      rewrite Heq in Hk; cbn [snd] in Hk; [by left|].
    destruct (0 <? maxLiquidatable l); [|by left].
    rewrite dom_insert_L in Hk. apply elem_of_union in Hk as [Hk|Hk]; [|by left].
    apply elem_of_singleton in Hk as ->.
    destruct (collected_key l Ht) as [Hid Hne].
    right. split; [done|]. exists l. split; [apply list_elem_of_here | done].
  - right. split; [done|]. exists l'. split; [by apply list_elem_of_further | done].
Qed.

(** [liquidations] changes at a key only together with a first insertion of
    the same entry into [positions]. *)
Lemma addPosition_liq_change loans pos liq k :
  (addPosition loans pos liq).2 !! k ≠ liq !! k →
  pos !! k = None ∧
  ∃ l, l ∈ loans ∧ 0 < maxLiquidatable l ∧
       (addPosition loans pos liq).1 !! k = Some l ∧
       (addPosition loans pos liq).2 !! k = Some l.
Proof.
  revert pos liq. induction loans as [|l rest IH]; intros pos liq; [done|].
  rewrite addPosition_cons. intros Hk.
  destruct (addOne_cases l pos liq) as [[Heq _]|(Ht & Hn & Heq)]; rewrite Heq in *;
    cbn [fst snd] in *.
  - destruct (IH _ _ Hk) as (Hnone & l' & Hin & Hm & H1 & H2).
    split; [done|]. exists l'. split; [by apply list_elem_of_further | done].
  - destruct (decide (k = keyOf l)) as [->|Hne].
    + destruct (0 <? maxLiquidatable l) eqn:Hm.
      * split; [done|]. exists l. split; [apply list_elem_of_here|].
        split; [by apply Z.ltb_lt|]. split.
        -- apply addPosition_keeps. by rewrite lookup_insert_eq.
        -- rewrite addPosition_liq_untouched; rewrite lookup_insert_eq; eauto.
      * exfalso. apply Hk. apply addPosition_liq_untouched.
        rewrite lookup_insert_eq; eauto.
    + assert ((if 0 <? maxLiquidatable l then <[keyOf l:=l]> liq else liq) !! k = liq !! k)
        as Hsame.
      { destruct (0 <? maxLiquidatable l); [by rewrite lookup_insert_ne | done]. }
      rewrite <- Hsame in Hk.
      destruct (IH _ _ Hk) as (Hnone & l' & Hin & Hm & H1 & H2).
      rewrite lookup_insert_ne in Hnone by done.
      split; [done|]. exists l'. split; [by apply list_elem_of_further | done].
Qed.

(** C10. addPosition skips an entry whose loanId is missing or empty; every
    key it adds to either mapping is the non-empty loanId of an entry of the
    page, so mappings whose keys are non-empty keep that property; and
    [liquidations] changes at a key only when that key was absent from
    [positions] and the same entry is inserted into [positions]. *)
Theorem addPosition_keys (loans : list Loan) (pos liq : gmap string Loan) :
  (∀ l pos0 liq0, truthy_id (loanId l) = false → addOne l pos0 liq0 = (pos0, liq0)) ∧
  (∀ k, k ∈ dom ((addPosition loans pos liq).1) →
        k ∈ dom pos ∨ k ≠ "" ∧ ∃ l, l ∈ loans ∧ loanId l = Some k) ∧
  (∀ k, k ∈ dom ((addPosition loans pos liq).2) →
        k ∈ dom liq ∨ k ≠ "" ∧ ∃ l, l ∈ loans ∧ loanId l = Some k) ∧
  ("" ∉ dom pos → "" ∉ dom liq →
   ("" ∉ dom ((addPosition loans pos liq).1)) ∧
   ("" ∉ dom ((addPosition loans pos liq).2))) ∧
  (∀ k, (addPosition loans pos liq).2 !! k ≠ liq !! k →
        pos !! k = None ∧
        ∃ l, l ∈ loans ∧ 0 < maxLiquidatable l ∧
             (addPosition loans pos liq).1 !! k = Some l ∧
             (addPosition loans pos liq).2 !! k = Some l).
Proof.
  split; [intros; by apply addOne_skip|].
  split; [intros k; apply addPosition_dom_pos|].
  split; [intros k; apply addPosition_dom_liq|].
  split; [|intros k; apply addPosition_liq_change].
  intros Hp0 Hl0. split; intros Hin.
  - destruct (addPosition_dom_pos _ _ _ _ Hin) as [?|[? _]]; done.
  - destruct (addPosition_dom_liq _ _ _ _ Hin) as [?|[? _]]; done.
Qed.

Lemma addPosition_keys_witness :
  ("" ∉ dom ((addPosition [loanNoId; loanA; loanB; loanA] ∅ ∅).1)) ∧
  ("" ∉ dom ((addPosition [loanNoId; loanA; loanB; loanA] ∅ ∅).2)).
Proof.
  apply (addPosition_keys [loanNoId; loanA; loanB; loanA] ∅ ∅);
    rewrite dom_empty_L; apply not_elem_of_empty.
Defined.

(** ** Further properties of the scanner *)

(** An answer other than a callback error never makes the iteration throw. *)
Lemma iteration_normal conf r s :
  r ≠ CallbackError → ∃ s', iteration conf r s = Normal s'.
Proof.
  intros Hr. destruct r as [| |res]; [done| |].
  - rewrite call_throws_as_empty_page, iteration_empty. eauto.
  - destruct res as [|l res]; [rewrite iteration_empty; eauto|].
    rewrite iteration_nonempty by done. eauto.
Qed.

Lemma iteration_callback_error conf s : iteration conf CallbackError s = Throw TypeError.
Proof. reflexivity. Qed.

(** X1. The loop of processPositions ends, with a TypeError, exactly when
    some answer of the ledger is a callback error; with any other answers
    (pages, empty pages, calls that throw) it keeps running. *)
Theorem loop_throws_iff conf replies s :
  (loop conf replies s = Throw TypeError ↔ CallbackError ∈ replies) ∧
  ((∃ s', loop conf replies s = Normal s') ↔ CallbackError ∉ replies).
Proof.
  revert s. induction replies as [|r rest IH]; intros s.
  - cbn [loop]. split.
    + split; [done | by intros ?%elem_of_nil].
    + split; [intros _; by intros ?%elem_of_nil | intros _; eauto].
  - cbn [loop]. destruct (iteration conf r s) as [s1|e] eqn:Hit.
    + assert (r ≠ CallbackError) as Hr.
      { intros ->. by rewrite iteration_callback_error in Hit. }
      destruct (IH s1) as [IH1 IH2]. split.
      * rewrite IH1, elem_of_cons. split; [by right | by intros [?|?]].
      * rewrite IH2, not_elem_of_cons. split; [done | by intros [_ ?]].
    + assert (r = CallbackError) as ->.
      { destruct r as [| |res]; [done| |].
        - by rewrite call_throws_as_empty_page, iteration_empty in Hit.
        - destruct (iteration_normal conf (CallbackResult res) s) as [s' Hs']; [done|].
          by rewrite Hs' in Hit. }
      rewrite iteration_callback_error in Hit. injection Hit as <-. split.
      * split; [intros _; apply list_elem_of_here | done].
      * split; [by intros [s' ?] | intros Hn; exfalso; apply Hn, list_elem_of_here].
Qed.

(** [liquidations] after addPosition, key by key. *)
Lemma addPosition_liq_lookup loans pos liq k :
  (addPosition loans pos liq).2 !! k =
    match pos !! k with
    | Some _ => liq !! k
    | None =>
        match (list_to_map (keyed loans) : gmap string Loan) !! k with
        | Some l => if 0 <? maxLiquidatable l then Some l else liq !! k
        | None => liq !! k
        end
    end.
Proof.
  revert pos liq. induction loans as [|l rest IH]; intros pos liq.
  - cbn. rewrite lookup_empty. by destruct (pos !! k).
  - rewrite addPosition_cons, IH.
    destruct (addOne_cases l pos liq) as [[-> [Hf|[v Hv]]]|(Ht & Hn & ->)];
      cbn [fst snd].
    + by rewrite keyed_cons_skip.
    + destruct (collected l) eqn:Ht; [|by rewrite keyed_cons_skip].
      rewrite keyed_cons_keep by done. cbn [list_to_map foldr uncurry].
      destruct (decide (k = keyOf l)) as [->|Hne].
      * by rewrite Hv.
      * by rewrite (lookup_insert_ne _ (keyOf l) k) by done.
    + rewrite keyed_cons_keep by done. cbn [list_to_map foldr uncurry].
      destruct (decide (k = keyOf l)) as [->|Hne].
      * rewrite !lookup_insert_eq, Hn. cbn [snd].
        destruct (0 <? maxLiquidatable l); [by rewrite lookup_insert_eq|done].
      * rewrite !(lookup_insert_ne _ (keyOf l) k) by done.
        destruct (pos !! k); [|destruct (list_to_map (keyed rest) !! k)];
          destruct (0 <? maxLiquidatable l); by rewrite ?lookup_insert_ne.
Qed.

(** X2. [liquidations] after addPosition: of the entries that can be
    collected (the loanId is not empty and is not the name of an inherited
    property, as "constructor" is), the first one of each loanId counts;
    those whose loanId is not yet in [positions] and that have
    [maxLiquidatable > 0] are put on top of what [liquidations] held,
    replacing an older entry of the same loanId; nothing else changes. *)
Theorem addPosition_liquidations loans pos liq :
  (addPosition loans pos liq).2
  = filter eligibleEntry (list_to_map (keyed loans) ∖ pos) ∪ liq.
Proof.
  apply map_eq. intros k. rewrite addPosition_liq_lookup, lookup_union.
  rewrite map_lookup_filter, lookup_difference.
  destruct (pos !! k) as [v|]; [by rewrite (left_id_L None _)|].
  destruct (list_to_map (keyed loans) !! k) as [l|] eqn:Hl;
    [|by rewrite (left_id_L None _)].
  cbn. unfold eligibleEntry; cbn [snd].
  destruct (0 <? maxLiquidatable l) eqn:Hm.
  - apply Z.ltb_lt in Hm. rewrite option_guard_True by done. cbn.
    by rewrite union_Some_l.
  - apply Z.ltb_ge in Hm. rewrite option_guard_False by lia.
    by rewrite (left_id_L None _).
Qed.

(** The bindings of the first-wins map of a page are entries of the page
    under their own, non-empty loanId. *)
Lemma keyed_lookup loans k l :
  (list_to_map (keyed loans) : gmap string Loan) !! k = Some l →
  l ∈ loans ∧ loanId l = Some k ∧ k ≠ "".
Proof.
  induction loans as [|l0 rest IH]; [cbn; by rewrite lookup_empty|].
  destruct (collected l0) eqn:Ht.
  - rewrite keyed_cons_keep by done. cbn [list_to_map foldr uncurry].
    destruct (decide (k = keyOf l0)) as [->|Hne].
    + rewrite lookup_insert_eq. intros [= <-].
      destruct (collected_key l0 Ht) as [Hid Hk].
      split; [apply list_elem_of_here | done].
    + rewrite lookup_insert_ne by done. intros Hl.
      destruct (IH Hl) as (Hin & Hid & Hk).
      split; [by apply list_elem_of_further | done].
  - rewrite keyed_cons_skip by done. intros Hl.
    destruct (IH Hl) as (Hin & Hid & Hk).
    split; [by apply list_elem_of_further | done].
Qed.

(** Every entry of a page that is not skipped has its loanId in the
    first-wins map of the page. *)
Lemma keyed_covers loans l :
  l ∈ loans → collected l = true →
  is_Some ((list_to_map (keyed loans) : gmap string Loan) !! keyOf l).
Proof.
  induction loans as [|l0 rest IH]; [by intros ?%elem_of_nil|].
  intros Hin Ht. destruct (collected l0) eqn:Ht0.
  - rewrite keyed_cons_keep by done. cbn [list_to_map foldr uncurry].
    destruct (decide (keyOf l = keyOf l0)) as [->|Hne].
    + rewrite lookup_insert_eq. eauto.
    + rewrite lookup_insert_ne by done. apply IH; [|done].
      apply elem_of_cons in Hin as [->|Hin]; done.
  - rewrite keyed_cons_skip by done. apply IH; [|done].
    apply elem_of_cons in Hin as [->|Hin]; [congruence | done].
Qed.

(** A page all of whose loanIds are already in [positions] changes nothing. *)
Lemma addPosition_known loans pos liq :
  (∀ l, l ∈ loans → collected l = true → is_Some (pos !! keyOf l)) →
  addPosition loans pos liq = (pos, liq).
Proof.
  induction loans as [|l rest IH]; intros Hall; [done|].
  rewrite addPosition_cons.
  destruct (addOne_cases l pos liq) as [[-> _]|(Ht & Hn & _)]; cbn [fst snd].
  - apply IH. intros l' Hin. apply Hall. by apply list_elem_of_further.
  - destruct (Hall l (list_elem_of_here _ _) Ht) as [v Hv]. congruence.
Qed.

(** X3. addPosition is idempotent: handing it the same page a second time
    changes neither mapping. *)
Theorem addPosition_idempotent loans pos liq :
  addPosition loans (addPosition loans pos liq).1 (addPosition loans pos liq).2
  = addPosition loans pos liq.
Proof.
  rewrite addPosition_known; [by destruct (addPosition loans pos liq)|].
  intros l Hin Ht. rewrite addPosition_positions, lookup_union.
  destruct (keyed_covers loans l Hin Ht) as [v ->].
  destruct (pos !! keyOf l); cbn; eauto.
Qed.

(** addPosition keeps the two mappings well-keyed and [liquidations] made of
    eligible entries. *)
Lemma addPosition_well_keyed loans pos liq :
  own_keys pos → own_keys liq →
  map_Forall (λ _ l, 0 < maxLiquidatable l) liq →
  own_keys (addPosition loans pos liq).1 ∧
  own_keys (addPosition loans pos liq).2 ∧
  map_Forall (λ _ l, 0 < maxLiquidatable l) (addPosition loans pos liq).2.
Proof.
  intros Hp Hl He. split; [|split].
  - intros k l. rewrite addPosition_positions, lookup_union_Some_raw.
    intros [Hk|[_ Hk]]; [by apply Hp|].
    by destruct (keyed_lookup _ _ _ Hk) as (_ & ? & ?).
  - intros k l. rewrite addPosition_liq_lookup.
    destruct (pos !! k); [by apply Hl|].
    destruct (list_to_map (keyed loans) !! k) as [l0|] eqn:Hk; [|by apply Hl].
    destruct (0 <? maxLiquidatable l0); [|by apply Hl].
    intros [= <-]. by destruct (keyed_lookup _ _ _ Hk) as (_ & ? & ?).
  - intros k l. rewrite addPosition_liq_lookup.
    destruct (pos !! k); [by apply He|].
    destruct (list_to_map (keyed loans) !! k) as [l0|] eqn:Hk; [|by apply He].
    destruct (0 <? maxLiquidatable l0) eqn:Hm; [|by apply He].
    intros [= <-]. by apply Z.ltb_lt.
Qed.

(** What one iteration leaves in the two mappings. *)
Lemma iteration_mappings conf r s s' :
  iteration conf r s = Normal s' →
  liquidations s' = (addPosition (entries (loadActivePositions r))
                       (positions s) (liquidations s)).2 ∧
  (positions s' = ∅ ∨
   positions s' = (addPosition (entries (loadActivePositions r))
                     (positions s) (liquidations s)).1).
Proof.
  destruct r as [| |res]; [done| |].
  - rewrite call_throws_as_empty_page, iteration_empty. intros [= <-].
    cbn. by split; [|left].
  - destruct res as [|l res].
    + rewrite iteration_empty. intros [= <-]. cbn. by split; [|left].
    + rewrite iteration_nonempty by done. intros [= <-]. cbn. by split; [|right].
Qed.

(** X4. In every run of the scanner that starts from well-keyed mappings
    (each entry under its own non-empty loanId, [liquidations] holding only
    entries with [maxLiquidatable > 0]) the mappings stay so. *)
Theorem loop_well_keyed conf replies s s' :
  own_keys (positions s) →
  own_keys (liquidations s) →
  map_Forall (λ _ l, 0 < maxLiquidatable l) (liquidations s) →
  loop conf replies s = Normal s' →
  own_keys (positions s') ∧
  own_keys (liquidations s') ∧
  map_Forall (λ _ l, 0 < maxLiquidatable l) (liquidations s').
Proof.
  revert s. induction replies as [|r rest IH]; intros s Hp Hl He; cbn [loop].
  - by intros [= <-].
  - destruct (iteration conf r s) as [s1|e] eqn:Hit; [|done].
    destruct (iteration_mappings _ _ _ _ Hit) as [Hliq Hpos].
    destruct (addPosition_well_keyed (entries (loadActivePositions r))
                (positions s) (liquidations s) Hp Hl He) as (Hp1 & Hl1 & He1).
    apply IH; rewrite ?Hliq; try done.
    destruct Hpos as [->| ->]; [|done].
    intros k l. by rewrite lookup_empty.
Qed.

Lemma loop_well_keyed_witness :
  own_keys (<["0xa1" := loanA]> (<["0xb2" := loanB]> ∅)) ∧
  own_keys (<["0xa1" := loanA]> ∅) ∧
  map_Forall (λ _ l, 0 < maxLiquidatable l) (<["0xa1" := loanA]> (∅ : gmap string Loan)).
Proof.
  refine (loop_well_keyed conf0
           [CallbackResult [loanNoId; loanA]; CallbackResult [loanB; loanA]]
           {| from := 0; to := 10; positions := ∅; liquidations := ∅; effects := [] |}
           {| from := 20; to := 30;
              positions := <["0xa1" := loanA]> (<["0xb2" := loanB]> ∅);
              liquidations := <["0xa1" := loanA]> ∅;
              effects := [WasteTime 1; WasteTime 1] |} _ _ _ _).
  - intros k l. cbn. by rewrite lookup_empty.
  - intros k l. cbn. by rewrite lookup_empty.
  - cbn. apply map_Forall_empty.
  - reflexivity.
Defined.



(** Where the cursor stands after a run. *)
Lemma loop_cursor conf replies s s' n :
  loop conf replies s = Normal s' →
  from s = Z.of_nat n * nrOfProcessingPositions conf →
  to s = from s + nrOfProcessingPositions conf →
  from s' = Z.of_nat (pagesSinceReset replies n) * nrOfProcessingPositions conf ∧
  to s' = from s' + nrOfProcessingPositions conf.
Proof.
  revert s n. induction replies as [|r rest IH]; intros s n; cbn [loop pagesSinceReset].
  - by intros [= <-].
  - destruct r as [| |[|l res]].
    + by rewrite iteration_callback_error.
    + rewrite call_throws_as_empty_page, iteration_empty. cbn [advances].
      intros Hrun _ _. apply (IH _ _ Hrun); cbn [from to]; lia.
    + rewrite iteration_empty. cbn [advances].
      intros Hrun _ _. apply (IH _ _ Hrun); cbn [from to]; lia.
    + rewrite iteration_nonempty by done. cbn [advances].
      intros Hrun Hfrom Hto. apply (IH _ _ Hrun); cbn [from to]; lia.
Qed.

(** X6. Whatever the ledger answers, as long as processPositions runs the
    window keeps the page size, and its start is the page size times the
    number of non-empty pages taken since the last empty page or thrown
    call. *)
Theorem processPositions_cursor conf pos liq replies s' :
  processPositions conf pos liq replies = Normal s' →
  from s' = Z.of_nat (pagesSinceReset replies 0) * nrOfProcessingPositions conf ∧
  to s' = from s' + nrOfProcessingPositions conf.
Proof.
  unfold processPositions. intros Hrun.
  apply (loop_cursor _ _ _ _ 0%nat Hrun); cbn [from to]; lia.
Qed.

Lemma processPositions_cursor_witness :
  (20 : Z) = Z.of_nat (pagesSinceReset
                         [CallbackResult [loanA]; CallThrows;
                          CallbackResult [loanA]; CallbackResult [loanB]] 0)
             * nrOfProcessingPositions conf0 ∧
  (30 : Z) = 20 + nrOfProcessingPositions conf0.
Proof.
  refine (processPositions_cursor conf0 ∅ ∅
            [CallbackResult [loanA]; CallThrows;
             CallbackResult [loanA]; CallbackResult [loanB]]
            {| from := 20; to := 30;
               positions := <["0xa1" := loanA]> (<["0xb2" := loanB]> ∅);
               liquidations := <["0xa1" := loanA]> ∅;
               effects := [WasteTime 1; LogActivePositions 1; WasteTime 60;
                           WasteTime 1; WasteTime 1] |} _).
  vm_compute. reflexivity.
Defined.

Lemma addPosition_app loans1 loans2 pos liq :
  addPosition (loans1 ++ loans2) pos liq
  = addPosition loans2 (addPosition loans1 pos liq).1 (addPosition loans1 pos liq).2.
Proof.
  revert pos liq. induction loans1 as [|l rest IH]; intros pos liq; [done|].
  cbn [app]. by rewrite !addPosition_cons, IH.
Qed.

(** X18. How the ledger cuts the loans into pages makes no difference to the
    two mappings: after a run of non-empty pages they are what addPosition
    makes of all the entries in one go. *)
Theorem paging_is_irrelevant conf (pages : list (list Loan)) s :
  Forall (λ page, page ≠ []) pages →
  ∃ s1, loop conf (map CallbackResult pages) s = Normal s1 ∧
        (positions s1, liquidations s1)
        = addPosition (concat pages) (positions s) (liquidations s).
Proof.
  intros Hall. revert s. induction Hall as [|page pages Hne _ IH]; intros s.
  - exists s. by split.
  - cbn [map loop concat]. rewrite iteration_nonempty by done.
    destruct (IH {| from := to s;
                    to := to s + nrOfProcessingPositions conf;
                    positions := (addPosition page (positions s) (liquidations s)).1;
                    liquidations := (addPosition page (positions s) (liquidations s)).2;
                    effects := effects s ++ [WasteTime 1] |}) as (s1 & Hrun & Hmaps).
    exists s1. split; [done|]. by rewrite Hmaps, addPosition_app.
Qed.

Lemma paging_is_irrelevant_witness :
  ∃ s1, loop conf0 (map CallbackResult [[loanB]; [loanA; loanNoId]; [loanA]])
          {| from := 0; to := 10; positions := ∅; liquidations := ∅; effects := [] |}
        = Normal s1 ∧
        (positions s1, liquidations s1)
        = addPosition [loanB; loanA; loanNoId; loanA] ∅ ∅.
Proof.
  apply (paging_is_irrelevant conf0 [[loanB]; [loanA; loanNoId]; [loanA]]
           {| from := 0; to := 10; positions := ∅; liquidations := ∅; effects := [] |}).
  repeat constructor; discriminate.
Defined.

End ScannerProps.

(** * Properties of the liquidator *)

Module LiquidatorProps.
Import Liquidator.

Lemma messages_app es1 es2 : messages (es1 ++ es2) = messages es1 ++ messages es2.
Proof. unfold messages. apply omap_app. Qed.

(** ** The claims about the liquidator *)

(** C3. liquidate deletes the loan from [liquidations] itself, with one
    delete that comes before the transaction is submitted and so before its
    outcome; neither handler writes to [liquidations]; whatever the outcome,
    the dispatch and its callbacks together delete the loan once and leave
    [liquidations] without it. *)
Theorem liquidate_removes_once conf loanId wallet amount token nonce s :
  liquidations (liquidate loanId wallet amount token nonce s)
    = delete loanId (liquidations s) ∧
  liquidations (liquidate loanId wallet amount token nonce s) !! loanId = None ∧
  (∃ val, effects (liquidate loanId wallet amount token nonce s)
          = effects s ++ [AddToQueue "liquidator" wallet loanId;
                          DeleteLiquidation loanId;
                          SendLiquidateTx loanId wallet amount nonce val]) ∧
  (∀ s' txHash,
     liquidations (handleLiqSuccess conf wallet loanId txHash s') = liquidations s' ∧
     deletions loanId (effects (handleLiqSuccess conf wallet loanId txHash s'))
       = deletions loanId (effects s')) ∧
  (∀ s' updatedLoan,
     liquidations (handleLiqError conf wallet loanId updatedLoan s') = liquidations s' ∧
     deletions loanId (effects (handleLiqError conf wallet loanId updatedLoan s'))
       = deletions loanId (effects s')) ∧
  (∀ o updatedLoan,
     liquidations (settle conf wallet loanId o updatedLoan
                     (liquidate loanId wallet amount token nonce s))
       = delete loanId (liquidations s) ∧
     deletions loanId (effects (settle conf wallet loanId o updatedLoan
                                  (liquidate loanId wallet amount token nonce s)))
       = S (deletions loanId (effects s))).
Proof.
  assert (∀ s' updatedLoan,
     deletions loanId (effects (handleLiqError conf wallet loanId updatedLoan s'))
       = deletions loanId (effects s')) as Herr.
  { intros s' u. unfold deletions, handleLiqError; cbn [effects].
    rewrite !List.filter_app, !length_app.
    destruct u as [u|]; [destruct (0 <? maxLiquidatable u)|]; simpl; lia. }
  assert (∀ s' txHash,
     deletions loanId (effects (handleLiqSuccess conf wallet loanId txHash s'))
       = deletions loanId (effects s')) as Hok.
  { intros s' h. unfold deletions, handleLiqSuccess; cbn [effects].
    rewrite List.filter_app, length_app. simpl; lia. }
  assert (deletions loanId (effects (liquidate loanId wallet amount token nonce s))
          = S (deletions loanId (effects s))) as Hliq.
  { unfold deletions, liquidate; cbn [effects].
    rewrite List.filter_app, length_app. simpl.
    rewrite String.eqb_refl. simpl. lia. }
  split; [done|]. split; [apply lookup_delete_eq|].
  split; [by eexists|]. split; [by intros; split|]. split; [by intros; split|].
  intros [h|] u; cbn [settle]; (split; [done|]).
  - by rewrite Herr, Hok.
  - by rewrite Herr.
Qed.

(** The Liquidator only takes keys out of [liquidations]: a dispatch keeps
    [liquidations] inside any [positions] it was inside of. *)
Lemma liquidate_keeps_inclusion (pos : gmap string Loan) loanId wallet amount token nonce s :
  Scanner.liq_subset_pos pos (liquidations s) →
  Scanner.liq_subset_pos pos (liquidations (liquidate loanId wallet amount token nonce s)).
Proof.
  unfold Scanner.liq_subset_pos, liquidate; cbn [liquidations].
  rewrite dom_delete_L. intros Hsub k Hk. apply Hsub.
  by apply elem_of_difference in Hk as [Hk _].
Qed.

(** A dispatch from wallet 0x3a that fails while the loan can still be
    liquidated: one message to the operator channel; the loan is out of
    [liquidations] and the wallet is free again. *)
Example failed_dispatch_still_eligible :
  messages (effects (settle mainnet "0x3a" "0xa1" TxRejected (Some eligible)
                       (liquidate "0xa1" "0x3a" 5 "0xd0c" 7 waiting)))
    = [("-1001", "mainnet-liquidation of loan 0xa1 failed.")] ∧
  liquidations (settle mainnet "0x3a" "0xa1" TxRejected (Some eligible)
                  (liquidate "0xa1" "0x3a" 5 "0xd0c" 7 waiting)) = ∅ ∧
  busy (settle mainnet "0x3a" "0xa1" TxRejected (Some eligible)
          (liquidate "0xa1" "0x3a" 5 "0xd0c" 7 waiting)) = ∅.
Proof. repeat split; vm_compute; reflexivity. Qed.

(** The same dispatch when the loan can no longer be liquidated: silence. *)
Example failed_dispatch_no_longer_eligible :
  messages (effects (settle mainnet "0x3a" "0xa1" TxRejected (Some settled)
                       (liquidate "0xa1" "0x3a" 5 "0xd0c" 7 waiting))) = [].
Proof. reflexivity. Qed.

(** C6. handleLiqError releases the wallet from the busy set, asks for the
    current status of the loan, and sends the escalation message to the
    operator channel exactly when the status it gets has
    [maxLiquidatable > 0]; with [maxLiquidatable = 0] it sends nothing. *)
Theorem handleLiqError_escalation conf wallet loanId (updatedLoan : option Loan) s :
  (("liquidator", wallet, loanId)
     ∉ busy (handleLiqError conf wallet loanId updatedLoan s)) ∧
  (∃ sent, effects (handleLiqError conf wallet loanId updatedLoan s)
           = effects s ++ [RemoveFromQueue "liquidator" wallet loanId;
                           GetPositionStatus loanId] ++ sent ∧
           (sent = [SendMessage (sovrynInternalTelegramId conf) (failedMsg conf loanId)]
            ↔ ∃ u, updatedLoan = Some u ∧ 0 < maxLiquidatable u) ∧
           (sent = [] ↔ ¬ ∃ u, updatedLoan = Some u ∧ 0 < maxLiquidatable u)) ∧
  (∀ u, updatedLoan = Some u → maxLiquidatable u = 0 →
        messages (effects (handleLiqError conf wallet loanId updatedLoan s))
        = messages (effects s)).
Proof.
  split.
  { unfold handleLiqError, removeFromQueue; cbn [busy].
    rewrite elem_of_difference, elem_of_singleton. tauto. }
  split.
  - eexists. split; [reflexivity|].
    destruct updatedLoan as [u|]; [destruct (0 <? maxLiquidatable u) eqn:Hm|].
    + apply Z.ltb_lt in Hm. split; split; try done; eauto.
      intros Hn. destruct Hn. eauto.
    + apply Z.ltb_ge in Hm. split; split; try done.
      * intros (u' & [= <-] & ?). lia.
      * intros _ (u' & [= <-] & ?). lia.
    + split; split; try done.
      * intros (u' & [=] & ?).
      * intros _ (u' & [=] & ?).
  - intros u -> Hz. unfold handleLiqError; cbn [effects]. rewrite Hz.
    rewrite !messages_app. cbn. by rewrite !(right_id_L [] (++)).
Qed.

(** ** Further properties of the liquidator *)

(** Visiting a key changes [liquidations] at most at that key. *)
Lemma visit_liquidations conf rbtc answer p s k :
  liquidations (visit conf rbtc answer p s) !! k =
    if decide (k = p) then
      (if found (answer p) then None else liquidations s !! k)
    else liquidations s !! k.
Proof.
  unfold visit. destruct (liquidations s !! p) as [pos|] eqn:Hp.
  - destruct (answer p) as [| |adr nonce]; cbn [found liquidations liquidate
      handleNoWalletError]; destruct (decide (k = p)) as [->|Hne]; try done.
    + apply lookup_delete_eq.
    + by apply lookup_delete_ne.
  - destruct (decide (k = p)) as [->|Hne]; [|done].
    rewrite Hp. by destruct (found (answer p)).
Qed.

(** X7. After a round of the liquidator, [liquidations] holds what it held
    before except the candidates of the round for which a wallet was found:
    these are gone, whatever becomes of their transactions; candidates that
    were skipped (already queued, or no funded wallet) stay as they were. *)
Theorem round_liquidations conf rbtc answer keys s k :
  liquidations (checkPositionsForLiquidations conf rbtc answer keys s) !! k =
    if bool_decide (k ∈ keys) && found (answer k) then None
    else liquidations s !! k.
Proof.
  revert s. induction keys as [|p rest IH]; intros s.
  - cbn. rewrite bool_decide_eq_false_2; [done | by intros ?%elem_of_nil].
  - cbn [checkPositionsForLiquidations]. rewrite IH, visit_liquidations.
    destruct (decide (k = p)) as [->|Hne].
    + rewrite (bool_decide_eq_true_2 (p ∈ p :: rest)) by apply list_elem_of_here.
      by destruct (found (answer p)), (bool_decide (p ∈ rest)).
    + destruct (decide (k ∈ rest)) as [Hin|Hnin].
      * rewrite !bool_decide_eq_true_2; [done | by apply list_elem_of_further | done].
      * rewrite !bool_decide_eq_false_2; [done | | done].
        by intros [?|?]%elem_of_cons.
Qed.

Lemma effects_app_visit conf rbtc answer p s :
  effects (visit conf rbtc answer p s)
  = effects s ++ visitEffects conf rbtc answer p (liquidations s !! p).
Proof.
  unfold visit, visitEffects. destruct (liquidations s !! p) as [pos|];
    [|by rewrite (right_id_L [] (++))].
  destruct (answer p) as [| |adr nonce]; cbn [effects liquidate handleNoWalletError];
    [by rewrite (right_id_L [] (++)) | done |].
  unfold tokenOf. do 4 f_equal.
  destruct (String.eqb (loanToken pos) rbtc) eqn:E1; cbn [orb]; [done|].
  done.
Qed.

(** X8. In a round that visits every key once, what is done for a candidate
    is decided by the entry it had when the round began: the round's effects
    are, key after key, nothing for a candidate already queued, the
    no-wallet alert for a candidate without wallet, and for a candidate with
    a wallet the queueing, the deletion and one transaction over the entry's
    [maxLiquidatable], carrying that amount as value exactly when the loan
    token is [testTokenRBTC] or "rBtc" (compared as they are, case
    included). *)
Theorem round_effects conf rbtc answer keys s :
  NoDup keys →
  effects (checkPositionsForLiquidations conf rbtc answer keys s)
  = effects s
    ++ concat (map (λ p, visitEffects conf rbtc answer p (liquidations s !! p)) keys).
Proof.
  intros Hnd. revert s. induction Hnd as [|p rest Hnin Hnd IH]; intros s.
  - cbn. by rewrite (right_id_L [] (++)).
  - cbn [checkPositionsForLiquidations map concat].
    rewrite IH, effects_app_visit, <- (assoc_L (++)). do 2 f_equal.
    apply (f_equal (@concat Effect)), map_ext_in. intros q Hq%list_elem_of_In.
    rewrite visit_liquidations. destruct (decide (q = p)) as [->|Hne]; done.
Qed.

Lemma round_effects_witness :
  effects (checkPositionsForLiquidations mainnet "0xB7C"
             (λ p, if String.eqb p "0xa1" then WalletFound "0x3a" 7 else NoWallet)
             ["0xa1"; "0xb2"]
             {| liquidations := <["0xb2" := settled]> {[ "0xa1" := eligible ]};
                busy := ∅; effects := [] |})
  = [AddToQueue "liquidator" "0x3a" "0xa1";
     DeleteLiquidation "0xa1";
     SendLiquidateTx "0xa1" "0x3a" 5 7 0;
     SendMessage "-1001" (noWalletMsg mainnet "0xb2")].
Proof.
  rewrite (round_effects mainnet "0xB7C"
             (λ p, if String.eqb p "0xa1" then WalletFound "0x3a" 7 else NoWallet)
             ["0xa1"; "0xb2"]).
  - reflexivity.
  - apply NoDup_cons. split; [by intros [=]%list_elem_of_singleton|].
    apply NoDup_singleton.
Defined.

(** X9. A transaction that resolves runs both handlers: the [then] callback
    releases the wallet and reports the success, then fails on the unbound
    [addLiqLog], and the [catch] callback releases the wallet again, asks for
    the loan's status and, when the loan can still be liquidated, reports a
    failure after the success. *)
Theorem resolved_runs_both_handlers conf wallet loanId txHash updatedLoan s :
  effects (settle conf wallet loanId (TxResolved txHash) updatedLoan s)
  = effects s
    ++ [RemoveFromQueue "liquidator" wallet loanId;
        SendMessage (sovrynInternalTelegramId conf) (successMsg conf loanId txHash);
        RemoveFromQueue "liquidator" wallet loanId;
        GetPositionStatus loanId]
    ++ match updatedLoan with
       | Some u =>
           if 0 <? maxLiquidatable u
           then [SendMessage (sovrynInternalTelegramId conf) (failedMsg conf loanId)]
           else []
       | None => []
       end ∧
  liquidations (settle conf wallet loanId (TxResolved txHash) updatedLoan s)
  = liquidations s ∧
  (("liquidator", wallet, loanId)
     ∉ busy (settle conf wallet loanId (TxResolved txHash) updatedLoan s)).
Proof.
  split; [|split].
  - cbn [settle handleLiqError handleLiqSuccess effects].
    by rewrite <- !(assoc_L (++)).
  - done.
  - cbn [settle handleLiqError busy]. unfold removeFromQueue.
    rewrite !elem_of_difference, elem_of_singleton. tauto.
Qed.

End LiquidatorProps.

(** * Properties of the arbitrage engine *)

Module ArbitrageProps.
Import Arbitrage.

(** *** Comparisons of binary64 numbers *)

Lemma SFcompare_antisym x y :
  SFcompare y x = option_map CompOpp (SFcompare x y).
Proof.
  destruct x as [sx|sx| |sx mx ex], y as [sy|sy| |sy my ey]; simpl;
    try reflexivity; try (by destruct sx); try (by destruct sy);
    try (by destruct sx, sy).
  rewrite (Z.compare_antisym ex ey).
  pose proof (Pos.compare_cont_antisym mx my Eq) as Hm. cbn [CompOpp] in Hm.
  destruct sx, sy; simpl; try reflexivity;
    destruct (ex ?= ey)%Z; simpl; try reflexivity;
    rewrite <- Hm; by rewrite ?CompOpp_involutive.
Qed.

Lemma SFcompare_refl x : x ≠ S754_nan → SFcompare x x = Some Eq.
Proof.
  destruct x as [s|s| |s m e]; simpl; intros Hx; try done.
  - by destruct s.
  - rewrite Z.compare_refl, Pos.compare_cont_refl. by destruct s.
Qed.

Lemma float_not_nan x : is_nan x = false ↔ Prim2SF x ≠ S754_nan.
Proof.
  unfold is_nan. rewrite FloatAxioms.eqb_spec. unfold SFeqb. split.
  - intros H E. rewrite E in H. discriminate.
  - intros H. by rewrite SFcompare_refl.
Qed.

(** A number above zero is neither NaN nor a zero. *)
Lemma positive_number x :
  (0 <? x)%float = true →
  is_nan x = false ∧ is_zero x = false ∧ (x =? x)%float = true ∧ truthyNum x = true.
Proof.
  intros Hpos.
  assert (is_nan x = false ∧ is_zero x = false) as [Hn Hz].
  { unfold is_nan, is_zero. revert Hpos.
    rewrite FloatAxioms.ltb_spec, !FloatAxioms.eqb_spec.
    change (Prim2SF 0) with (S754_zero false).
    change (Prim2SF zero) with (S754_zero false).
    unfold SFltb, SFeqb. intros Hpos. split.
    - rewrite SFcompare_refl; [done|]. intros E. by rewrite E in Hpos.
    - destruct (Prim2SF x) as [s|s| |s m e]; simpl in *; try done; by destruct s. }
  repeat split; try done.
  - unfold is_nan in Hn. by destruct (x =? x)%float.
  - unfold truthyNum. by rewrite Hn, Hz.
Qed.

Lemma ltb_not_eqb x y : (x <? y)%float = true → (x =? y)%float = false.
Proof.
  rewrite FloatAxioms.ltb_spec, FloatAxioms.eqb_spec. unfold SFltb, SFeqb.
  by destruct (SFcompare (Prim2SF x) (Prim2SF y)) as [[]|].
Qed.

Lemma ltb_not_leb x y : (x <? y)%float = true → (y <=? x)%float = false.
Proof.
  rewrite FloatAxioms.ltb_spec, FloatAxioms.leb_spec. unfold SFltb, SFleb.
  rewrite (SFcompare_antisym (Prim2SF x) (Prim2SF y)).
  by destruct (SFcompare (Prim2SF x) (Prim2SF y)) as [[]|].
Qed.

Lemma ltb_leb x y : (x <? y)%float = true → (x <=? y)%float = true.
Proof.
  rewrite FloatAxioms.ltb_spec, FloatAxioms.leb_spec. unfold SFltb, SFleb.
  by destruct (SFcompare (Prim2SF x) (Prim2SF y)) as [[]|].
Qed.

(** Two numbers, neither of them NaN and neither below the other, are equal
    as numbers. *)
Lemma neither_below x y :
  is_nan x = false → is_nan y = false →
  (x <? y)%float = false → (y <? x)%float = false →
  (x =? y)%float = true ∧ (y =? x)%float = true ∧ (x <=? y)%float = true.
Proof.
  rewrite !float_not_nan, !FloatAxioms.ltb_spec, !FloatAxioms.eqb_spec,
    FloatAxioms.leb_spec.
  unfold SFltb, SFeqb, SFleb.
  rewrite (SFcompare_antisym (Prim2SF x) (Prim2SF y)).
  intros Hx Hy.
  destruct (SFcompare (Prim2SF x) (Prim2SF y)) as [[]|] eqn:Hc; simpl; try done.
  exfalso. destruct (Prim2SF x), (Prim2SF y); simpl in Hc; done.
Qed.

(** Math.min of two positive numbers. *)
Lemma Math_min_positive x y :
  (0 <? x)%float = true → (0 <? y)%float = true →
  (x <=? y)%float = true ∧ truthyNum (Math_min x y) = true ∧
    (Math_min x y =? x)%float = true
  ∨ (x <=? y)%float = false ∧ (y <? x)%float = true ∧ Math_min x y = y.
Proof.
  intros Hx Hy.
  destruct (positive_number x Hx) as (Hnx & _ & Hxx & Htx).
  destruct (positive_number y Hy) as (Hny & _ & Hyy & Hty).
  unfold Math_min. rewrite Hnx, Hny. cbn [orb].
  destruct (x <? y)%float eqn:Hlt.
  - left. by rewrite (ltb_leb _ _ Hlt).
  - destruct (y <? x)%float eqn:Hgt.
    + right. by rewrite (ltb_not_leb _ _ Hgt).
    + destruct (neither_below x y Hnx Hny Hlt Hgt) as (Hxy & Hyx & Hle).
      left. rewrite Hle. by destruct (get_sign x).
Qed.

(** The choice made by start for two positive quotes. *)
Lemma start_trade_positive conf p0 p1 :
  (0 <? etherNumber p0)%float = true → (0 <? etherNumber p1)%float = true →
  start_trade conf p0 p1 =
    if (thresholdArbitrage conf <=?
          abs (etherNumber p0 - etherNumber p1)
            / Math_min (etherNumber p0) (etherNumber p1) * 100)%float
    then if (etherNumber p0 <=? etherNumber p1)%float
         then Some (SendLiquidity p0 Doc)
         else Some (SendLiquidity amountWei Rbtc)
    else None.
Proof.
  intros H0 H1. unfold start_trade, calcArbitrage. rewrite H0, H1. cbn [andb].
  destruct (thresholdArbitrage conf <=? _)%float; [|done].
  destruct (Math_min_positive _ _ H0 H1) as [(-> & -> & ->)|(-> & Hlt & ->)]; [done|].
  destruct (positive_number _ H1) as (_ & _ & -> & ->).
  by rewrite (ltb_not_eqb _ _ Hlt).
Qed.

Lemma start_trade_not_positive conf p0 p1 :
  ((0 <? etherNumber p0) && (0 <? etherNumber p1))%float = false →
  start_trade conf p0 p1 = None.
Proof. unfold start_trade. by intros ->. Qed.

(** *** Arithmetic on NaN *)

Lemma is_nan_spec x : Prim2SF x = S754_nan → is_nan x = true.
Proof. unfold is_nan. rewrite FloatAxioms.eqb_spec. by intros ->. Qed.

Lemma div_nan_l y : Prim2SF (nan / y) = S754_nan.
Proof. by rewrite FloatAxioms.div_spec. Qed.

Lemma div_nan_r x y : Prim2SF y = S754_nan → Prim2SF (x / y) = S754_nan.
Proof.
  rewrite FloatAxioms.div_spec. intros ->. unfold SF64div, SFdiv.
  by destruct (Prim2SF x).
Qed.

Lemma mul_nan_r x y : Prim2SF y = S754_nan → Prim2SF (x * y) = S754_nan.
Proof.
  rewrite FloatAxioms.mul_spec. intros ->. unfold SF64mul, SFmul.
  by destruct (Prim2SF x).
Qed.

Lemma sub_nan_r x y : Prim2SF y = S754_nan → Prim2SF (x - y) = S754_nan.
Proof.
  rewrite FloatAxioms.sub_spec. intros ->. unfold SF64sub, SFsub.
  by destruct (Prim2SF x).
Qed.

(** Without an oracle quote every record calculateProfit persists has NaN as
    its profit. *)
Lemma calculateProfit_undefined_feed conf receipt r :
  r ∈ persisted (calculateProfit conf receipt None) → is_nan (profit r) = true.
Proof.
  unfold calculateProfit.
  destruct receipt as [| |logs]; cbn; try by intros ?%elem_of_nil.
  destruct (List.find _ logs) as [ev|]; cbn; [|by intros ?%elem_of_nil].
  destruct (events ev) as [e|]; cbn; [|by intros ?%elem_of_nil].
  assert (Prim2SF (Number_ None / amount) = S754_nan) as Hfeed by apply div_nan_l.
  destruct (String.eqb _ _); cbn; intros ->%list_elem_of_singleton; cbn [profit];
    apply is_nan_spec, sub_nan_r.
  - by apply mul_nan_r.
  - by apply div_nan_r.
Qed.

Lemma persisted_app es1 es2 : persisted (es1 ++ es2) = persisted es1 ++ persisted es2.
Proof. unfold persisted. apply omap_app. Qed.

(** ** The claims about the arbitrage engine *)

(** C5 (as stated, refuted). In exact arithmetic the quotes 10 and 10.2 are
    2 percent apart, and at the threshold 2 the rule asks for a trade: the
    code computes 1.99999999999999 and does not trade. The quotes 1 and
    1.019999999999999999 are less than 2 percent apart: the code reads the
    second as 1.02, computes 2.0000000000000018 and trades. *)
Lemma exact_rule_differs_from_code :
  exactRule (ether 10) (102 * 10 ^ 17) 2 1 = true ∧
  thresholdArbitrage (confAt 2) = 2%float ∧
  start_trade (confAt 2) (ether 10) (102 * 10 ^ 17) = None ∧
  exactRule (ether 1) 1019999999999999999 2 1 = false ∧
  start_trade (confAt 2) (ether 1) 1019999999999999999
    = Some (SendLiquidity (ether 1) Doc).
Proof. repeat split; vm_compute; reflexivity. Qed.

(** C5 (amended). For two positive quotes A (AMM) and B (price feed), start
    triggers a trade exactly when |A - B| / min(A, B) * 100, computed on
    JavaScript numbers (binary64, every operation rounded) as calcArbitrage
    does, is at least the threshold. The trade is on the cheaper side: with
    A not above B the quoted amount of Doc goes to the AMM, with B below A
    the notional amount of RBtc does. *)
Theorem arbitrage_threshold_rule conf p0 p1 :
  (0 <? etherNumber p0)%float = true →
  (0 <? etherNumber p1)%float = true →
  (is_Some (start_trade conf p0 p1) ↔
   (thresholdArbitrage conf <=?
      abs (etherNumber p0 - etherNumber p1)
        / Math_min (etherNumber p0) (etherNumber p1) * 100)%float = true) ∧
  (start_trade conf p0 p1 = None ↔
   (thresholdArbitrage conf <=?
      abs (etherNumber p0 - etherNumber p1)
        / Math_min (etherNumber p0) (etherNumber p1) * 100)%float = false) ∧
  (is_Some (start_trade conf p0 p1) →
   (etherNumber p0 <=? etherNumber p1)%float = true →
   start_trade conf p0 p1 = Some (SendLiquidity p0 Doc) ∧
   calcArbitrage (etherNumber p0) (etherNumber p1) (thresholdArbitrage conf)
     = Some (Math_min (etherNumber p0) (etherNumber p1)) ∧
   (Math_min (etherNumber p0) (etherNumber p1) =? etherNumber p0)%float = true) ∧
  (is_Some (start_trade conf p0 p1) →
   (etherNumber p1 <? etherNumber p0)%float = true →
   start_trade conf p0 p1 = Some (SendLiquidity amountWei Rbtc) ∧
   calcArbitrage (etherNumber p0) (etherNumber p1) (thresholdArbitrage conf)
     = Some (etherNumber p1) ∧
   Math_min (etherNumber p0) (etherNumber p1) = etherNumber p1).
Proof.
  intros H0 H1. rewrite (start_trade_positive conf p0 p1 H0 H1).
  unfold calcArbitrage.
  destruct (Math_min_positive _ _ H0 H1) as [(Hle & _ & Hmin)|(Hle & Hlt & Hmin)];
    rewrite Hle.
  - destruct (thresholdArbitrage conf <=? _)%float eqn:Hthr.
    + split; [by split; eauto|]. split; [by split|].
      split; [done|]. intros _ Hgt. apply ltb_not_leb in Hgt. congruence.
    + split; [split; [by intros []|done]|]. split; [done|].
      split; by intros [].
  - rewrite Hmin. destruct (thresholdArbitrage conf <=? _)%float eqn:Hthr.
    + split; [by split; eauto|]. split; [by split|].
      split; [done|]. done.
    + split; [split; [by intros []|done]|]. split; [done|].
      split; by intros [].
Qed.

Lemma arbitrage_threshold_rule_witness :
  start_trade (confAt 2) (ether 100) (ether 102) = Some (SendLiquidity (ether 100) Doc) ∧
  calcArbitrage (etherNumber (ether 100)) (etherNumber (ether 102)) 2
    = Some (Math_min (etherNumber (ether 100)) (etherNumber (ether 102))) ∧
  (Math_min (etherNumber (ether 100)) (etherNumber (ether 102)) =? 100)%float = true ∧
  start_trade (confAt 2.1) (ether 100) (ether 102) = None.
Proof.
  destruct (arbitrage_threshold_rule (confAt 2) (ether 100) (ether 102))
    as (Hiff & _ & Hdoc & _); [vm_compute; reflexivity ..|].
  destruct (arbitrage_threshold_rule (confAt 2.1) (ether 100) (ether 102))
    as (_ & Hnone & _); [vm_compute; reflexivity ..|].
  destruct Hdoc as (Htrade & Hcalc & Hmin).
  - apply Hiff. vm_compute; reflexivity.
  - vm_compute; reflexivity.
  - split; [exact Htrade|]. split; [exact Hcalc|]. split; [exact Hmin|].
    apply Hnone. vm_compute; reflexivity.
Defined.

(** C8 (as stated, refuted). With the price feed quote below the AMM quote
    the amount sent is the notional 0.010 RBtc, which is not the smaller of
    the two quotes. *)
Lemma oracle_side_size_is_notional :
  start_trade (confAt 1) (ether 102) (ether 100) = Some (SendLiquidity amountWei Rbtc) ∧
  Z.min (ether 102) (ether 100) = ether 100 ∧
  amountWei ≠ Z.min (ether 102) (ether 100).
Proof.
  split; [vm_compute; reflexivity|]. split; [vm_compute; reflexivity|].
  intros H. vm_compute in H. discriminate.
Qed.

(** Quotes one wei apart are the same JavaScript number: at the threshold 0
    the AMM quote is sent in Doc although the price feed quote is the
    smaller amount of wei. *)
Example quotes_one_wei_apart :
  start_trade (confAt 0) (10 ^ 18 + 1) (10 ^ 18)
  = Some (SendLiquidity (10 ^ 18 + 1) Doc).
Proof. vm_compute; reflexivity. Qed.

(** C8 (amended). For a triggered trade the two quotes are compared as
    JavaScript numbers, and one of the two comparisons holds: when the AMM
    quote is not above the price feed quote, the trade is Doc of the size of
    the AMM quote; when the price feed quote is below the AMM quote, the
    trade is RBtc of the fixed notional size [amountWei], not of a quote. *)
Theorem trade_size conf p0 p1 size c :
  start_trade conf p0 p1 = Some (SendLiquidity size c) →
  ((etherNumber p0 <=? etherNumber p1)%float = true
   ∨ (etherNumber p1 <? etherNumber p0)%float = true) ∧
  ((etherNumber p0 <=? etherNumber p1)%float = true → c = Doc ∧ size = p0) ∧
  ((etherNumber p1 <? etherNumber p0)%float = true → c = Rbtc ∧ size = amountWei).
Proof.
  destruct ((0 <? etherNumber p0) && (0 <? etherNumber p1))%float eqn:Hpos.
  - apply andb_true_iff in Hpos as [H0 H1].
    rewrite (start_trade_positive conf p0 p1 H0 H1).
    destruct (thresholdArbitrage conf <=? _)%float; [|done].
    destruct (Math_min_positive _ _ H0 H1) as [(Hle & _)|(Hle & Hlt & _)]; rewrite Hle.
    + intros [= <- <-]. split; [by left|]. split; [done|].
      intros Hgt. apply ltb_not_leb in Hgt. congruence.
    + intros [= <- <-]. split; [by right|]. split; [done|]. done.
  - by rewrite (start_trade_not_positive conf p0 p1 Hpos).
Qed.

Lemma trade_size_witness :
  (start_trade (confAt 2) (ether 100) (ether 102)
     = Some (SendLiquidity (ether 100) Doc) ∧
   (etherNumber (ether 100) <=? etherNumber (ether 102))%float = true ∧
   Doc = Doc ∧ ether 100 = ether 100) ∧
  (start_trade (confAt 2) (ether 102) (ether 100)
     = Some (SendLiquidity amountWei Rbtc) ∧
   (etherNumber (ether 100) <? etherNumber (ether 102))%float = true ∧
   Rbtc = Rbtc ∧ amountWei = amountWei).
Proof.
  split.
  - split; [vm_compute; reflexivity|]. split; [vm_compute; reflexivity|].
    apply (trade_size (confAt 2) (ether 100) (ether 102) (ether 100) Doc);
      vm_compute; reflexivity.
  - split; [vm_compute; reflexivity|]. split; [vm_compute; reflexivity|].
    apply (trade_size (confAt 2) (ether 102) (ether 100) amountWei Rbtc);
      vm_compute; reflexivity.
Defined.

(** The sibling path of sendLiquidity: when the call itself throws, the catch
    block resolves the promise to undefined and the round ends. *)
Lemma path_throws_ends_round conf p0 p1 size c swap receipt :
  start_trade conf p0 p1 = Some (SendLiquidity size c) →
  sendLiquidity size c PathThrows swap = ([], Resolved None) ∧
  start_round conf p0 p1 PathThrows swap receipt
    = ([WasteTime (arbitrageScanInterval conf)], RoundCompleted).
Proof. intros Ht. unfold start_round. by rewrite Ht. Qed.

(** C9 (code evaluated at the failing input). For a triggered trade whose
    conversion path comes back with an error, missing, or of a length other
    than 3, the callback throws a ReferenceError before it resolves the
    promise: no swap is submitted, sendLiquidity stays pending, and the round
    of start that awaits it does not reach its end. *)
Theorem bad_path_suspends_round conf p0 p1 size c error result swap receipt :
  start_trade conf p0 p1 = Some (SendLiquidity size c) →
  badPath error result = true →
  pathCallback size c error result swap = Throw ReferenceError ∧
  sendLiquidity size c (PathCallback error result) swap = ([], Pending) ∧
  start_round conf p0 p1 (PathCallback error result) swap receipt
    = ([], RoundSuspended).
Proof.
  intros Ht Hbad. unfold start_round, sendLiquidity, pathCallback.
  by rewrite Ht, Hbad.
Qed.

Lemma bad_path_suspends_round_witness :
  pathCallback (ether 100) Doc false (Some ["0xD0C"; "0xB7C"]) (SwapResolved "0x7x")
    = Throw ReferenceError ∧
  sendLiquidity (ether 100) Doc (PathCallback false (Some ["0xD0C"; "0xB7C"]))
      (SwapResolved "0x7x") = ([], Pending) ∧
  start_round (confAt 2) (ether 100) (ether 102)
      (PathCallback false (Some ["0xD0C"; "0xB7C"])) (SwapResolved "0x7x")
      (ReceiptLogs [conversionLog])
    = ([], RoundSuspended).
Proof.
  apply (bad_path_suspends_round (confAt 2) (ether 100) (ether 102) (ether 100) Doc).
  - vm_compute; reflexivity.
  - reflexivity.
Defined.

(** calculateProfit itself, handed the oracle quote: for fromAmount = 1 RBtc,
    a price feed rate of 100 (the quote 1 for the notional 0.010) and
    toAmount = 105, the profit is 5. *)
Lemma calculateProfit_with_price_feed :
  ∃ r, calculateProfit (confAt 2) (ReceiptLogs [conversionLog]) (Some 1%float)
       = [AddArbitrage r] ∧
       recFromAmount r = 1%float ∧ recToAmount r = 105%float ∧
       trade r = "sell btc" ∧ profit r = 5%float.
Proof. eexists. split; [vm_compute; reflexivity|]. cbn. repeat split. Qed.

(** The same event without the oracle quote: the profit is NaN. *)
Lemma calculateProfit_without_price_feed :
  ∃ r, calculateProfit (confAt 2) (ReceiptLogs [conversionLog]) None
       = [AddArbitrage r] ∧
       recFromAmount r = 1%float ∧ recToAmount r = 105%float ∧
       is_nan (profit r) = true.
Proof. eexists. split; [vm_compute; reflexivity|]. cbn. repeat split. Qed.

(** sendLiquidity persists nothing. *)
Lemma sendLiquidity_persisted a c path swap :
  persisted (sendLiquidity a c path swap).1 = [].
Proof.
  unfold sendLiquidity, pathCallback. destruct path as [|error result]; [done|].
  by destruct (badPath error result), swap.
Qed.

(** C7 (code evaluated at the failing input). start calls calculateProfit
    without the oracle quote, so the rate is NaN: every record a round
    persists has NaN as its profit, whatever the Conversion event says. *)
Theorem profit_from_start_is_nan conf p0 p1 path swap receipt r :
  r ∈ persisted (start_round conf p0 p1 path swap receipt).1 →
  is_nan (profit r) = true ∧ (profit r =? 5)%float = false.
Proof.
  intros Hin.
  assert (is_nan (profit r) = true) as Hnan.
  { revert Hin. unfold start_round.
    destruct (start_trade conf p0 p1) as [[a c]|]; cbn; [|by intros ?%elem_of_nil].
    pose proof (sendLiquidity_persisted a c path swap) as Hes.
    destruct (sendLiquidity a c path swap) as [es [[tx|]|]]; cbn [fst] in *.
    - rewrite !persisted_app, Hes. cbn. rewrite (right_id_L [] (++)).
      apply calculateProfit_undefined_feed.
    - rewrite persisted_app, Hes. cbn. by intros ?%elem_of_nil.
    - rewrite Hes. by intros ?%elem_of_nil. }
  split; [done|].
  unfold is_nan in Hnan. rewrite FloatAxioms.eqb_spec in *. unfold SFeqb in *.
  destruct (Prim2SF (profit r)); [..|done|];
    by rewrite SFcompare_refl in Hnan.
Qed.

Lemma profit_from_start_is_nan_witness :
  ∃ r, persisted (start_round (confAt 2) (102 * 10 ^ 16) (100 * 10 ^ 16)
                    (PathCallback false (Some ["0xB7C"; "0xaa"; "0xD0C"]))
                    (SwapResolved "0x7x") (ReceiptLogs [notionalLog])).1 = [r] ∧
       recFromAmount r = 0.01%float ∧ recToAmount r = 1.02%float ∧
       is_nan (profit r) = true ∧ (profit r =? 5)%float = false.
Proof.
  eexists. split; [vm_compute; reflexivity|].
  split; [reflexivity|]. split; [reflexivity|].
  eapply (profit_from_start_is_nan (confAt 2) (102 * 10 ^ 16) (100 * 10 ^ 16)
            (PathCallback false (Some ["0xB7C"; "0xaa"; "0xD0C"]))
            (SwapResolved "0x7x") (ReceiptLogs [notionalLog])).
  vm_compute. apply list_elem_of_here.
Defined.

(** ** Further properties of the arbitrage engine *)

Lemma mul_nan_l x y : Prim2SF x = S754_nan → Prim2SF (x * y) = S754_nan.
Proof. rewrite FloatAxioms.mul_spec. by intros ->. Qed.

Lemma leb_nan_r x y : Prim2SF y = S754_nan → (x <=? y)%float = false.
Proof.
  rewrite FloatAxioms.leb_spec. intros ->. unfold SFleb.
  by destruct (Prim2SF x).
Qed.

Lemma leb_refl x : is_nan x = false → (x <=? x)%float = true.
Proof.
  rewrite float_not_nan, FloatAxioms.leb_spec. unfold SFleb.
  intros Hx. by rewrite SFcompare_refl.
Qed.

Lemma ltb_irrefl x : (x <? x)%float = false.
Proof.
  rewrite FloatAxioms.ltb_spec. unfold SFltb.
  destruct (Prim2SF x) as [s|s| |s m e] eqn:E; try (by destruct s).
  - done.
  - rewrite SFcompare_refl; done.
Qed.

(** Math.min of a number with itself. *)
Lemma Math_min_same p : Math_min p p = if is_nan p then nan else p.
Proof.
  unfold Math_min. destruct (is_nan p); [done|]. cbn [orb].
  rewrite ltb_irrefl. by destruct (get_sign p).
Qed.

(** X10. What calcArbitrage returns, when it returns something, is one of
    the two prices it was given, is not NaN and is not above either price:
    prices of which one is NaN never give an opportunity. *)
Theorem calcArbitrage_returns_a_price p1 p2 threshold m :
  calcArbitrage p1 p2 threshold = Some m →
  (m = p1 ∨ m = p2) ∧
  is_nan m = false ∧
  (m <=? p1)%float = true ∧ (m <=? p2)%float = true.
Proof.
  unfold calcArbitrage.
  destruct (threshold <=? _)%float eqn:Hthr; [|done]. intros [= <-].
  destruct (is_nan p1 || is_nan p2) eqn:Hnan.
  - exfalso. revert Hthr. unfold Math_min. rewrite Hnan.
    rewrite leb_nan_r; [done|]. by apply mul_nan_l, div_nan_r.
  - apply orb_false_iff in Hnan as [Hn1 Hn2].
    unfold Math_min. rewrite Hn1, Hn2. cbn [orb].
    destruct (p1 <? p2)%float eqn:Hlt.
    + by rewrite (ltb_leb _ _ Hlt), leb_refl; eauto.
    + destruct (p2 <? p1)%float eqn:Hgt.
      * by rewrite (ltb_leb _ _ Hgt), leb_refl; eauto.
      * destruct (neither_below p1 p2 Hn1 Hn2 Hlt Hgt) as (_ & _ & H12).
        destruct (neither_below p2 p1 Hn2 Hn1 Hgt Hlt) as (_ & _ & H21).
        destruct (get_sign p1); rewrite ?H12, ?H21, leb_refl; eauto.
Qed.

Lemma calcArbitrage_returns_a_price_witness :
  (100%float = 100%float ∨ 100%float = 102%float) ∧
  is_nan 100 = false ∧
  (100 <=? 100)%float = true ∧ (100 <=? 102)%float = true.
Proof.
  apply (calcArbitrage_returns_a_price 100 102 2 100). vm_compute; reflexivity.
Defined.

(** The price difference of a price with itself, in percent, is NaN or a
    zero. *)
Lemma same_price_difference p :
  Prim2SF (abs (p - p) / Math_min p p * 100) = S754_nan
  ∨ ∃ s, Prim2SF (abs (p - p) / Math_min p p * 100) = S754_zero s.
Proof.
  rewrite Math_min_same.
  destruct (is_nan p) eqn:Hn.
  - left. by apply mul_nan_l, div_nan_r.
  - rewrite FloatAxioms.mul_spec, FloatAxioms.div_spec, FloatAxioms.abs_spec,
      FloatAxioms.sub_spec.
    apply float_not_nan in Hn.
    set (h := Prim2SF 100). vm_compute in h. subst h.
    destruct (Prim2SF p) as [s|s| |s m e]; [| |done|].
    + left. by destruct s.
    + left. by destruct s.
    + right. unfold SF64sub, SFsub. rewrite Z.sub_diag.
      cbn. eauto.
Qed.

(** X11. Equal quotes never give an opportunity under a positive threshold,
    whatever the quote is (zero, infinite and NaN included). *)
Theorem equal_quotes_no_opportunity p threshold :
  (0 <? threshold)%float = true →
  calcArbitrage p p threshold = None.
Proof.
  intros Hpos. unfold calcArbitrage.
  destruct (same_price_difference p) as [Hv|[s Hv]].
  - by rewrite leb_nan_r.
  - revert Hpos. rewrite FloatAxioms.ltb_spec, FloatAxioms.leb_spec, Hv.
    change (Prim2SF 0) with (S754_zero false). unfold SFltb, SFleb.
    destruct (Prim2SF threshold) as [st|st| |st mt et]; cbn; try done;
      by destruct st.
Qed.

Lemma equal_quotes_no_opportunity_witness :
  calcArbitrage 100 100 0.001 = None.
Proof.
  apply (equal_quotes_no_opportunity 100 0.001). vm_compute; reflexivity.
Defined.

(** The order of binary64 numbers is transitive. *)
Lemma SFleb_trans x y z : SFleb x y = true → SFleb y z = true → SFleb x z = true.
Proof.
  unfold SFleb.
  destruct x as [sx|sx| |sx mx ex], y as [sy|sy| |sy my ey], z as [sz|sz| |sz mz ez];
    cbn; try done;
    try (destruct sx; try done); try (destruct sy; try done); try (destruct sz; try done).
  all: change (PosDef.Pos.compare_cont Eq ?a ?b) with (Pos.compare a b).
  all: destruct (Z.compare_spec ex ey), (Z.compare_spec ey ez), (Z.compare_spec ex ez);
    cbn; try done; try lia; subst;
    destruct (Pos.compare_spec mx my), (Pos.compare_spec my mz), (Pos.compare_spec mx mz);
    cbn; try done; try lia.
Qed.

Lemma leb_trans x y z :
  (x <=? y)%float = true → (y <=? z)%float = true → (x <=? z)%float = true.
Proof. rewrite !FloatAxioms.leb_spec. apply SFleb_trans. Qed.

(** X12. Lowering the threshold never loses a trade: quotes that trigger a
    trade under one configuration trigger the same trade under any
    configuration whose threshold is not higher. *)
Theorem lower_threshold_keeps_trade conf conf' p0 p1 tr :
  (thresholdArbitrage conf' <=? thresholdArbitrage conf)%float = true →
  start_trade conf p0 p1 = Some tr →
  start_trade conf' p0 p1 = Some tr.
Proof.
  intros Hle. unfold start_trade, calcArbitrage.
  destruct ((0 <? etherNumber p0) && (0 <? etherNumber p1))%float; [|done].
  destruct (thresholdArbitrage conf <=? _)%float eqn:Hthr; [|done].
  by rewrite (leb_trans _ _ _ Hle Hthr).
Qed.

Lemma lower_threshold_keeps_trade_witness :
  start_trade (confAt 1.5) (ether 100) (ether 102) = Some (SendLiquidity (ether 100) Doc).
Proof.
  apply (lower_threshold_keeps_trade (confAt 2) (confAt 1.5) (ether 100) (ether 102));
    vm_compute; reflexivity.
Defined.

(** The two trades start can choose. *)
Lemma start_trade_shape conf p0 p1 size c :
  start_trade conf p0 p1 = Some (SendLiquidity size c) →
  c = Doc ∧ size = p0 ∨ c = Rbtc ∧ size = amountWei.
Proof.
  unfold start_trade.
  destruct (if ((0 <? etherNumber p0) && (0 <? etherNumber p1))%float
            then calcArbitrage (etherNumber p0) (etherNumber p1) (thresholdArbitrage conf)
            else None) as [a|]; [|done].
  destruct (truthyNum a && (a =? etherNumber p0)%float); [intros [= <- <-]; by left|].
  destruct (truthyNum a && (a =? etherNumber p1)%float); [intros [= <- <-]; by right|].
  done.
Qed.

Lemma zero_quote_no_trade_l conf p1 : start_trade conf 0 p1 = None.
Proof. by apply start_trade_not_positive. Qed.

Lemma zero_quote_no_trade_r conf p0 : start_trade conf p0 0 = None.
Proof.
  apply start_trade_not_positive.
  change (0 <? etherNumber 0)%float with false. apply andb_false_r.
Qed.

(** X13. A failed price query costs the round its trade and nothing else:
    when the AMM or the price feed query fails in a way the code answers
    with the quote 0 (the call throws, or a callback receives an error), the
    round submits no swap, persists nothing and ends with its pause. *)
Theorem failed_quote_no_trade conf i :
  quoteFailed i = true →
  round conf i = ([WasteTime (arbitrageScanInterval conf)], RoundCompleted).
Proof.
  unfold quoteFailed, round, getRBtcPrices, start_round.
  destruct (ammReply i) as [| |[| |wei]]; cbn; try done;
    rewrite ?zero_quote_no_trade_l; try done.
  destruct (pfReply i); cbn; try done; by rewrite zero_quote_no_trade_r.
Qed.

Lemma failed_quote_no_trade_witness :
  round (confAt 2)
    {| ammReply := AmmPath (RateResult (ether 100)); pfReply := QuoteError;
       pathReply := PathCallback false (Some ["0xD0C"; "0xaa"; "0xB7C"]);
       swapReply := SwapResolved "0x7x"; receiptReply := ReceiptLogs [conversionLog] |}
  = ([WasteTime 60], RoundCompleted).
Proof.
  apply (failed_quote_no_trade (confAt 2)). reflexivity.
Defined.

Lemma swaps_app es1 es2 : swaps (es1 ++ es2) = swaps es1 ++ swaps es2.
Proof. apply List.filter_app. Qed.

Lemma pauses_app es1 es2 : pauses (es1 ++ es2) = pauses es1 ++ pauses es2.
Proof. apply List.filter_app. Qed.

(** calculateProfit submits nothing and does not pause. *)
Lemma calculateProfit_quiet conf receipt feed :
  swaps (calculateProfit conf receipt feed) = [] ∧
  pauses (calculateProfit conf receipt feed) = [].
Proof.
  unfold calculateProfit. destruct receipt as [| |logs]; try done.
  destruct (List.find _ logs) as [ev|]; [|done].
  destruct (events ev) as [e|]; [|done].
  by destruct (String.eqb _ _).
Qed.

(** sendLiquidity on a well-formed path. *)
Lemma sendLiquidity_good_path a c error result swap :
  badPath error result = false →
  ∃ path, error = false ∧ result = Some path ∧ length path = 3%nat ∧
    sendLiquidity a c (PathCallback error result) swap
    = match swap with
      | SwapResolved tx =>
          ([ConvertByPath path a 1 (match c with Doc => 0 | Rbtc => a end)],
           Resolved (Some tx))
      | SwapRejected =>
          ([ConvertByPath path a 1 (match c with Doc => 0 | Rbtc => a end)],
           Resolved None)
      | SwapThrows => ([], Pending)
      end.
Proof.
  intros Hbad. unfold sendLiquidity, pathCallback. rewrite Hbad.
  unfold badPath in Hbad. apply orb_false_iff in Hbad as [-> Hres].
  destruct result as [path|]; [|done]. exists path.
  apply negb_false_iff, Nat.eqb_eq in Hres. by destruct swap.
Qed.

(** X14. A round submits at most one swap, and a swap it submits goes along
    a path of length 3 with minReturn 1 (no guarantee on the return): it is
    either the AMM quote in Doc, carrying no value, or the notional amount
    in RBtc, carrying that amount as value. *)
Theorem round_swaps conf i :
  swaps (round conf i).1 = []
  ∨ ∃ path a v p0 p1,
      getRBtcPrices (ammReply i) (pfReply i) = Resolved (p0, p1) ∧
      pathReply i = PathCallback false (Some path) ∧
      length path = 3%nat ∧
      swaps (round conf i).1 = [ConvertByPath path a 1 v] ∧
      (a = p0 ∧ v = 0 ∨ a = amountWei ∧ v = amountWei).
Proof.
  unfold round.
  destruct (getRBtcPrices (ammReply i) (pfReply i)) as [[p0 p1]|] eqn:Hq; [|by left].
  unfold start_round.
  destruct (start_trade conf p0 p1) as [[a c]|] eqn:Ht; [|by left].
  destruct (pathReply i) as [|error result] eqn:Hp; [by left|].
  destruct (badPath error result) eqn:Hbad.
  - left. unfold sendLiquidity, pathCallback. by rewrite Hbad.
  - destruct (sendLiquidity_good_path a c error result (swapReply i) Hbad)
      as (path & -> & -> & Hlen & ->).
    destruct (swapReply i) as [tx| |] eqn:Hs; [| |by left];
      (right; exists path, a, (match c with Doc => 0 | Rbtc => a end), p0, p1;
       split; [done|]; split; [done|]; split; [done|]; split;
       [cbn [fst]; rewrite ?swaps_app;
        rewrite ?(proj1 (calculateProfit_quiet _ _ _)); done
       |destruct (start_trade_shape _ _ _ _ _ Ht) as [[-> ->]|[-> ->]]; eauto]).
Qed.

(** A round pauses once, at its end, when it completes, and not at all when
    it is suspended. *)
Lemma round_pauses conf i :
  pauses (round conf i).1 =
    match (round conf i).2 with
    | RoundCompleted => [WasteTime (arbitrageScanInterval conf)]
    | RoundSuspended => []
    end.
Proof.
  unfold round.
  destruct (getRBtcPrices (ammReply i) (pfReply i)) as [[p0 p1]|]; [|done].
  unfold start_round.
  destruct (start_trade conf p0 p1) as [[a c]|]; [|done].
  destruct (pathReply i) as [|error result]; [done|].
  destruct (badPath error result) eqn:Hbad.
  - unfold sendLiquidity, pathCallback. by rewrite Hbad.
  - destruct (sendLiquidity_good_path a c error result (swapReply i) Hbad)
      as (path & -> & -> & Hlen & ->).
    destruct (swapReply i); cbn [fst snd]; rewrite ?pauses_app;
      rewrite ?(proj2 (calculateProfit_quiet _ _ _)); done.
Qed.

(** X15. start pauses once after every round that completes, whatever the
    round did: over rounds that all complete, the pauses are one per round,
    each of [arbitrageScanInterval]. *)
Theorem start_pauses_every_round conf rounds :
  (start conf rounds).2 = RoundCompleted →
  pauses (start conf rounds).1
  = replicate (length rounds) (WasteTime (arbitrageScanInterval conf)).
Proof.
  induction rounds as [|i rest IH]; [done|].
  cbn [start]. pose proof (round_pauses conf i) as Hp.
  destruct (round conf i) as [es [|]]; [|done].
  destruct (start conf rest) as [es' e]. cbn [fst snd] in *.
  intros ->. by rewrite pauses_app, Hp, IH.
Qed.

Lemma start_pauses_every_round_witness :
  pauses (start (confAt 2)
            [{| ammReply := AmmPathError; pfReply := QuoteResult (ether 102);
                pathReply := PathThrows; swapReply := SwapRejected;
                receiptReply := ReceiptThrows |};
             {| ammReply := AmmPath (RateResult (ether 100));
                pfReply := QuoteResult (ether 102);
                pathReply := PathCallback false (Some ["0xD0C"; "0xaa"; "0xB7C"]);
                swapReply := SwapResolved "0x7x";
                receiptReply := ReceiptLogs [conversionLog] |}]).1
  = [WasteTime 60; WasteTime 60].
Proof.
  apply (start_pauses_every_round (confAt 2)). vm_compute; reflexivity.
Defined.



(** X19. A round fails to reach its end exactly when a call throws inside a
    callback, where no try block catches it: rateByPath(...).call in the
    callback of getPriceFromAmm; or, with a trade triggered, the reference
    to the unbound [contract] when the conversion path of sendLiquidity
    comes back with an error, missing or of a length other than 3; or, with
    a trade triggered and a well-formed path, convertByPath(...).send
    itself. Every other round completes. *)
Theorem round_suspended_iff conf i :
  (round conf i).2 = RoundSuspended ↔
  ammReply i = AmmPath RateThrows
  ∨ ∃ p0 p1 error result,
      getRBtcPrices (ammReply i) (pfReply i) = Resolved (p0, p1) ∧
      is_Some (start_trade conf p0 p1) ∧
      pathReply i = PathCallback error result ∧
      (badPath error result = true ∨ swapReply i = SwapThrows).
Proof.
  unfold round.
  destruct (getRBtcPrices (ammReply i) (pfReply i)) as [[p0 p1]|] eqn:Hq.
  - assert (ammReply i ≠ AmmPath RateThrows) as Hamm.
    { intros E. unfold getRBtcPrices in Hq. by rewrite E in Hq. }
    unfold start_round.
    destruct (start_trade conf p0 p1) as [[a c]|] eqn:Ht.
    + destruct (pathReply i) as [|error result] eqn:Hp.
      * split; [done|]. intros [?|(? & ? & ? & ? & _ & _ & [=] & _)]; done.
      * destruct (badPath error result) eqn:Hbad.
        -- unfold sendLiquidity, pathCallback. rewrite Hbad. cbn [snd].
           split; [|done]. intros _. right. exists p0, p1, error, result.
           rewrite Ht. eauto 6.
        -- destruct (sendLiquidity_good_path a c error result (swapReply i) Hbad)
             as (path & -> & -> & Hlen & ->).
           destruct (swapReply i) as [tx| |] eqn:Hs; cbn [snd].
           ++ split; [done|].
              intros [?|(? & ? & ? & ? & _ & _ & [= <- <-] & [Hb|?])]; [done| |done].
              congruence.
           ++ split; [done|].
              intros [?|(? & ? & ? & ? & _ & _ & [= <- <-] & [Hb|?])]; [done| |done].
              congruence.
           ++ split; [|done]. intros _. right. exists p0, p1, false, (Some path).
              rewrite Ht. eauto 6.
    + split; [done|].
      intros [?|(? & ? & ? & ? & [= <- <-] & [tr Htr] & _)]; [done|].
      congruence.
  - split; [|done]. intros _. left.
    unfold getRBtcPrices, getPriceFromAmm in Hq.
    by destruct (ammReply i) as [| |[| |wei]].
Qed.

End ArbitrageProps.

(** * The scanner and the liquidator together *)

Module WatcherProps.

(** X17. A candidate that the liquidator has dispatched is not put back into
    [liquidations] by the scanner for as long as its loanId stays in
    [positions], that is for the rest of the scan cycle, however often the
    ledger lists it; once [positions] has been reset, the first page that
    lists the loan first with [maxLiquidatable > 0] puts it back, provided
    its loanId is not the name of an inherited property (a loanId of the
    ledger never is). *)
Theorem dispatched_candidate_returns_next_cycle
    k wallet amount token nonce (ls : Liquidator.State)
    (pos : gmap string Loan) (page rest : list Loan) (l : Loan) :
  is_Some (pos !! k) →
  loanId l = Some k → k ≠ "" → Scanner.inherited k = false →
  0 < maxLiquidatable l →
  (Scanner.addPosition page pos
     (Liquidator.liquidations
        (Liquidator.liquidate k wallet amount token nonce ls))).2 !! k = None ∧
  (Scanner.addPosition (l :: rest) ∅
     (Liquidator.liquidations
        (Liquidator.liquidate k wallet amount token nonce ls))).2 !! k = Some l.
Proof.
  intros Hpos Hid Hk Hinh Hm. split.
  - rewrite ScannerProps.addPosition_liq_untouched by done.
    apply lookup_delete_eq.
  - assert (Scanner.collected l = true ∧ keyOf l = k) as [Ht Hkey].
    { unfold Scanner.collected, keyOf. rewrite Hid, Hinh. by destruct k. }
    rewrite ScannerProps.addPosition_liq_lookup, lookup_empty.
    rewrite ScannerProps.keyed_cons_keep by done. cbn [list_to_map foldr uncurry].
    rewrite Hkey, lookup_insert_eq. cbn [snd].
    by apply Z.ltb_lt in Hm as ->.
Qed.

Lemma dispatched_candidate_returns_next_cycle_witness :
  (Scanner.addPosition [Scanner.loanC; Scanner.loanD] {[ Scanner.idC := Scanner.loanC ]}
     (Liquidator.liquidations
        (Liquidator.liquidate Scanner.idC "0x3a" 3 "0xd0c" 7
           {| Liquidator.liquidations := {[ Scanner.idC := Scanner.loanC ]};
              Liquidator.busy := ∅; Liquidator.effects := [] |}))).2
    !! Scanner.idC = None ∧
  (Scanner.addPosition [Scanner.loanC; Scanner.loanD] ∅
     (Liquidator.liquidations
        (Liquidator.liquidate Scanner.idC "0x3a" 3 "0xd0c" 7
           {| Liquidator.liquidations := {[ Scanner.idC := Scanner.loanC ]};
              Liquidator.busy := ∅; Liquidator.effects := [] |}))).2
    !! Scanner.idC = Some Scanner.loanC.
Proof.
  apply (dispatched_candidate_returns_next_cycle Scanner.idC "0x3a" 3 "0xd0c" 7
           {| Liquidator.liquidations := {[ Scanner.idC := Scanner.loanC ]};
              Liquidator.busy := ∅; Liquidator.effects := [] |}
           {[ Scanner.idC := Scanner.loanC ]}
           [Scanner.loanC; Scanner.loanD] [Scanner.loanD] Scanner.loanC).
  - rewrite lookup_singleton_eq. eauto.
  - reflexivity.
  - discriminate.
  - vm_compute; reflexivity.
  - reflexivity.
Defined.

End WatcherProps.
